(** * Spotify-Song-Analyzer: the normalisation / load pipeline

    A shallow embedding of [Preprocessing.py] (CSV rows -> filtered data
    frame -> normalised SQLite tables) and of the artist lookup of
    [Artist.py], followed by the properties of the load subsystem.

    Modelling conventions
    - A Python [str] is the [string] of the bytes of its UTF-8 encoding.
      Equality, [split(", ")] and [replace(" ", "_")] act on the encoding
      as they act on the code points, the bytes of an ASCII character
      occurring in no other character's encoding.
    - [str.lower] is the Python runtime's: it follows the Unicode
      character database and is not part of the scripts.  It is a
      parameter of the development ([Py.Runtime]); what is proved holds
      for every lower-casing function, and the few statements that depend
      on what [lower] does to a given string say so in a hypothesis.
    - pandas [float64] columns ([danceability], [speechiness]) and the
      quotient [duration / 1000] are rationals ([Q]); integer columns are [Z].
    - An SQLite table is the list of its rows in insertion order together
      with its AUTOINCREMENT counter; a connection carries the working
      state, the last committed state and a trace of the writes and commits
      it performed.
    - Python exceptions are the [Raised] outcome of a small state-and-error
      monad over the connection. *)

From Stdlib Require Import ZArith QArith Qround List String Ascii Bool Lia.
Import ListNotations.

Set Implicit Arguments.

(* ================================================================= *)
(** ** Python built-ins used by the scripts *)

Module Py.

Local Open Scope string_scope.

(** What the scripts take from the Python runtime: [s.lower()]. *)
Class Runtime : Type := { lower : string -> string }.

(** [s.replace(old, new)] for a non-empty [old]: occurrences are found left
    to right and do not overlap.  [skip] counts the characters of the
    occurrence just replaced that are still to be stepped over. *)
Fixpoint replace_from (old new : string) (skip : nat) (s : string) : string :=
  match s with
  | EmptyString => EmptyString
  | String c s' =>
      match skip with
      | S k => replace_from old new k s'
      | O =>
          if prefix old s
          then new ++ replace_from old new (String.length old - 1) s'
          else String c (replace_from old new 0 s')
      end
  end.

Definition replace (old new s : string) : string := replace_from old new 0 s.

(** [s.split(sep)] for a non-empty [sep]: [tok] is the token being read. *)
Fixpoint split_from (sep : string) (skip : nat) (tok : string) (s : string)
  : list string :=
  match s with
  | EmptyString => [tok]
  | String c s' =>
      match skip with
      | S k => split_from sep k tok s'
      | O =>
          if prefix sep s
          then tok :: split_from sep (String.length sep - 1) EmptyString s'
          else split_from sep 0 (tok ++ String c EmptyString) s'
      end
  end.

Definition split (sep s : string) : list string :=
  split_from sep 0 EmptyString s.

(** [numpy.round] / [Series.round()] with no decimals: to the nearest
    integer, a tie going to the even neighbour. *)
Definition round_half_even (q : Q) : Z :=
  let f := Qfloor q in
  match Qcompare (q - inject_Z f) (1 # 2) with
  | Lt => f
  | Gt => (f + 1)%Z
  | Eq => if Z.even f then f else (f + 1)%Z
  end.

(** [int(b)] for a [bool]. *)
Definition int_of_bool (b : bool) : Z := if b then 1%Z else 0%Z.

End Py.

(* ================================================================= *)
(** ** The SQLite store *)

Module Sqlite3.

Local Open Scope Z_scope.

(** A row of [Artist(id, artist_name)] or of [Genre(id, genre_name)]. *)
Record NameRow : Type := mkName { row_id : Z; row_name : string }.

(** A row of [Song]. *)
Record SongRow : Type := mkSong {
  song_id : Z;
  song_name : string;
  song_duration : Z;
  song_explicit : Z;
  song_year : Z;
  song_popularity : Z;
  song_danceability : Q;
  song_speechiness : Q;
  song_artist_id : Z
}.

(** Rows in insertion order, and the largest rowid ever handed out
    (the table's entry in [sqlite_sequence]). *)
Record Table (R : Type) : Type := mkTable { rows : list R; seq : Z }.

Record DB : Type := mkDB {
  Genre : Table NameRow;
  Artist : Table NameRow;
  Song : Table SongRow;
  SongGenre : list (Z * Z)
}.

Definition empty_table (R : Type) : Table R := mkTable [] 0.

(** The store right after the file is created. *)
Definition empty_db : DB :=
  mkDB (empty_table NameRow) (empty_table NameRow) (empty_table SongRow) [].

Definition max_id (ids : list Z) : Z := fold_right Z.max 0 ids.

(** [INTEGER PRIMARY KEY AUTOINCREMENT]: one more than the largest rowid
    the table holds or ever held. *)
Definition next_rowid (ids : list Z) (sq : Z) : Z := Z.max (max_id ids) sq + 1.

Inductive event : Type :=
| EvInsert (after : DB)
| EvCommit (after : DB).

Definition event_db (e : event) : DB :=
  match e with EvInsert d => d | EvCommit d => d end.

Definition is_commit (e : event) : bool :=
  match e with EvCommit _ => true | EvInsert _ => false end.

(** A connection: the state its statements see, the state last committed,
    and what it has done so far, the newest event first. *)
Record Conn : Type := mkConn { cur : DB; durable : DB; log : list event }.

(** [sqlite3.connect(db_name)] on a file holding [disk]. *)
Definition connect (disk : DB) : Conn := mkConn disk disk [].

Inductive exn : Type :=
| IntegrityError (constraint : string)
| AttributeError (message : string).

Inductive outcome (A : Type) : Type :=
| Returned (a : A)
| Raised (e : exn).
Arguments Raised {A} e.

Definition M (A : Type) : Type := Conn -> outcome A * Conn.

Definition ret {A} (a : A) : M A := fun c => (Returned a, c).

Definition raise {A} (e : exn) : M A := fun c => (Raised e, c).

Definition bind {A B} (m : M A) (k : A -> M B) : M B :=
  fun c =>
    match m c with
    | (Returned a, c') => k a c'
    | (Raised e, c') => (Raised e, c')
    end.

(** [for x in l: body(x)] *)
Fixpoint for_each {A} (l : list A) (body : A -> M unit) : M unit :=
  match l with
  | [] => ret tt
  | x :: l' => bind (body x) (fun _ => for_each l' body)
  end.

(** The working state becomes [d]; nothing is durable yet. *)
Definition write (d : DB) : M unit :=
  fun c => (Returned tt, mkConn d (durable c) (EvInsert d :: log c)).

(** [conn.commit()] *)
Definition commit : M unit :=
  fun c => (Returned tt, mkConn (cur c) (cur c) (EvCommit (cur c) :: log c)).

(** [conn.close()]: what was not committed is gone. *)
Definition close : M unit :=
  fun c => (Returned tt, mkConn (durable c) (durable c) (log c)).

End Sqlite3.

(* ================================================================= *)
(** ** Preprocessing.py *)

Module Preprocessing.

Import Py Sqlite3.
Local Open Scope string_scope.
Local Open Scope Z_scope.

(** A line of the CSV file (the columns the script reads). *)
Record CsvRow : Type := mkCsv {
  csv_song : string;
  csv_artist : string;
  csv_genre : string;
  csv_duration_ms : Z;
  csv_explicit : bool;
  csv_year : Z;
  csv_popularity : Z;
  csv_danceability : Q;
  csv_speechiness : Q
}.

(** A row of the data frame, [duration_ms] having been renamed.  The
    [genre] column holds the text of the field; [pd.read_csv] delivers an
    empty field as NaN instead, a case [populate_row_cell] covers. *)
Record Row : Type := mkRow {
  song : string;
  artist : string;
  genre : string;
  duration : Z;
  explicit : bool;
  year : Z;
  popularity : Z;
  danceability : Q;
  speechiness : Q
}.

Section Scripts.

Context {RT : Runtime}.

(** *** class SongDatasetProcessor *)

(** [df.rename(columns={"duration_ms": "duration"})] *)
Definition rename_columns (r : CsvRow) : Row :=
  mkRow (csv_song r) (csv_artist r) (csv_genre r) (csv_duration_ms r)
        (csv_explicit r) (csv_year r) (csv_popularity r)
        (csv_danceability r) (csv_speechiness r).

(** [(df["duration"] / 1000).round().astype(int)] *)
Definition to_seconds (ms : Z) : Z := round_half_even (inject_Z ms / inject_Z 1000).

Definition convert_duration (r : Row) : Row :=
  mkRow (song r) (artist r) (genre r) (to_seconds (duration r))
        (explicit r) (year r) (popularity r) (danceability r) (speechiness r).

Definition Qlt_bool (a b : Q) : bool :=
  match Qcompare a b with Lt => true | _ => false end.

(** The boolean mask of the row selection. *)
Definition mask (r : Row) : bool :=
  (50 <? popularity r)
  && Qle_bool (33 # 100) (speechiness r)
  && Qle_bool (speechiness r) (66 # 100)
  && Qlt_bool (20 # 100) (danceability r).

(** [.str.lower().str.replace(" ", "_")] *)
Definition canonicalize (s : string) : string := replace " " "_" (lower s).

Definition standardize_artist (r : Row) : Row :=
  mkRow (song r) (canonicalize (artist r)) (genre r) (duration r)
        (explicit r) (year r) (popularity r) (danceability r) (speechiness r).

(** [load_and_preprocess_data]: the value left in [self.df]. *)
Definition load_and_preprocess_data (csv : list CsvRow) : list Row :=
  let df := map rename_columns csv in
  let df := map convert_duration df in
  let df := filter mask df in
  map standardize_artist df.

(** *** class DatabaseManager *)

(** The two (table, column) pairs [get_or_create_id] is called with:
    [("Artist", "artist_name")] and [("Genre", "genre_name")]. *)
Inductive table_name : Type := TArtist | TGenre.

Definition get_table (t : table_name) (d : DB) : Table NameRow :=
  match t with TArtist => Artist d | TGenre => Genre d end.

Definition set_table (t : table_name) (tb : Table NameRow) (d : DB) : DB :=
  match t with
  | TArtist => mkDB (Genre d) tb (Song d) (SongGenre d)
  | TGenre => mkDB tb (Artist d) (Song d) (SongGenre d)
  end.

Definition has_name (value : string) (r : NameRow) : bool :=
  String.eqb (row_name r) value.

(** [SELECT id FROM {table} WHERE {column} = ?] followed by [fetchone()]. *)
Definition select_id (t : table_name) (value : string) : M (option Z) :=
  fun c =>
    ret (option_map row_id (find (has_name value) (rows (get_table t (cur c))))) c.

(** [INSERT INTO {table} ({column}) VALUES (?)] followed by [lastrowid];
    the column is declared UNIQUE. *)
Definition insert_name (t : table_name) (value : string) : M Z :=
  fun c =>
    let tb := get_table t (cur c) in
    if existsb (has_name value) (rows tb)
    then raise (IntegrityError "UNIQUE") c
    else
      let i := next_rowid (map row_id (rows tb)) (seq tb) in
      bind (write (set_table t (mkTable (rows tb ++ [mkName i value]) i) (cur c)))
           (fun _ => ret i) c.

(** [INSERT INTO Song (...) VALUES (?, ?, ?, ?, ?, ?, ?, ?)] followed by
    [lastrowid]. *)
Definition insert_song (r : Row) (artist_id : Z) : M Z :=
  fun c =>
    let d := cur c in
    let tb := Song d in
    let i := next_rowid (map song_id (rows tb)) (seq tb) in
    let s := mkSong i (song r) (duration r) (int_of_bool (explicit r)) (year r)
                    (popularity r) (danceability r) (speechiness r) artist_id in
    bind (write (mkDB (Genre d) (Artist d) (mkTable (rows tb ++ [s]) i) (SongGenre d)))
         (fun _ => ret i) c.

Definition same_pair (p q : Z * Z) : bool :=
  (fst p =? fst q) && (snd p =? snd q).

(** [INSERT INTO SongGenre (song_id, genre_id) VALUES (?, ?)]; the pair is
    the primary key. *)
Definition insert_song_genre (sid gid : Z) : M unit :=
  fun c =>
    let d := cur c in
    if existsb (same_pair (sid, gid)) (SongGenre d)
    then raise (IntegrityError "PRIMARY KEY") c
    else write (mkDB (Genre d) (Artist d) (Song d) (SongGenre d ++ [(sid, gid)])) c.

(** [create_tables]: four CREATE TABLE IF NOT EXISTS and a commit; the
    rows already in the file stay as they are. *)
Definition create_tables : M unit := commit.

Definition get_or_create_id (t : table_name) (value : string) : M Z :=
  bind (select_id t value) (fun row_id =>
  match row_id with
  | None =>
      bind (insert_name t value) (fun lastrowid =>
      bind commit (fun _ =>
      ret lastrowid))
  | Some i => ret i
  end).

(** The body of the loop over the genres of one row. *)
Definition link_genre (sid : Z) (g : string) : M unit :=
  bind (get_or_create_id TGenre g) (fun genre_id =>
  insert_song_genre sid genre_id).

(** The body of the loop over [data.iterrows()]. *)
Definition populate_row (r : Row) : M unit :=
  bind (get_or_create_id TArtist (artist r)) (fun artist_id =>
  bind (insert_song r artist_id) (fun sid =>
  let genres := split ", " (genre r) in
  for_each genres (link_genre sid))).

Definition populate_database (data : list Row) : M unit :=
  bind (for_each data populate_row) (fun _ => commit).

(** A cell of the [genre] column as [pd.read_csv] delivers it: the text of
    the field, or NaN (a [float]) where the field is empty. *)
Inductive cell : Type :=
| Str (s : string)
| NaN.

(** [row["genre"].split(", ")] on such a cell. *)
Definition split_cell (sep : string) (g : cell) : M (list string) :=
  match g with
  | Str s => ret (split sep s)
  | NaN => raise (AttributeError "'float' object has no attribute 'split'")
  end.

(** The body of the loop over [data.iterrows()] and [populate_database],
    on rows given with their [genre] cell. *)
Definition populate_row_cell (r : Row) (g : cell) : M unit :=
  bind (get_or_create_id TArtist (artist r)) (fun artist_id =>
  bind (insert_song r artist_id) (fun sid =>
  bind (split_cell ", " g) (fun genres =>
  for_each genres (link_genre sid)))).

Definition populate_database_cells (data : list (Row * cell)) : M unit :=
  bind (for_each data (fun rg => populate_row_cell (fst rg) (snd rg)))
       (fun _ => commit).

Definition close_connection : M unit := close.

(** [main()], on a CSV file holding [csv] and a database file holding
    [disk]. *)
Definition main (csv : list CsvRow) (disk : DB) : outcome unit * Conn :=
  let df := load_and_preprocess_data csv in
  bind create_tables (fun _ =>
  bind (populate_database df) (fun _ =>
  close_connection)) (connect disk).

End Scripts.

End Preprocessing.

(* ================================================================= *)
(** ** Artist.py *)

Module Artist.

Import Py Sqlite3.
Local Open Scope string_scope.
Local Open Scope Z_scope.

(** A query result with columns (genre, average popularity). *)
Definition frame : Type := list (string * Q).

(** What the script shows to its user, in order.  The styled comparison
    table and the bar chart are rendered by pandas and matplotlib from the
    two query results they are given. *)
Inductive output : Type :=
| Prompt (s : string)
| Print (s : string)
| Display (artist_df overall_df : frame)
| Show (artist_df overall_df : frame).

Record World : Type := mkWorld { conn : Conn; stdout : list output }.

Definition print (s : string) (w : World) : World :=
  mkWorld (conn w) (stdout w ++ [Print s]).

Definition emit (o : output) (w : World) : World :=
  mkWorld (conn w) (stdout w ++ [o]).

Section Scripts.

Context {RT : Runtime}.

(** *** class ArtistPopularityAnalyzer *)

(** [SELECT id FROM Artist WHERE artist_name = ?] followed by [fetchone()]. *)
Definition select_artist_id (artist_name : string) (d : DB) : option Z :=
  option_map row_id
    (find (fun r => String.eqb (row_name r) artist_name) (rows (Artist d))).

Definition get_artist_id (artist_name : string) (w : World) : option Z * World :=
  let artist_name := replace " " "_" (lower artist_name) in
  match select_artist_id artist_name (cur (conn w)) with
  | None =>
      (None, print ("Artist '" ++ artist_name ++ "' not found in the database.") w)
  | Some i => (Some i, w)
  end.

(** [FROM Song JOIN SongGenre ON Song.id = SongGenre.song_id
     JOIN Genre ON SongGenre.genre_id = Genre.id], restricted to the songs
    that satisfy [sel]; each joined row gives (genre_name, popularity). *)
Definition joined (sel : SongRow -> bool) (d : DB) : list (string * Z) :=
  flat_map (fun s =>
    flat_map (fun sg =>
      if fst sg =? song_id s
      then map (fun g => (row_name g, song_popularity s))
               (filter (fun g => row_id g =? snd sg) (rows (Genre d)))
      else [])
      (SongGenre d))
    (filter sel (rows (Song d))).

(** [AVG(x)] over a non-empty group. *)
Definition avg (xs : list Z) : Q :=
  inject_Z (fold_right Z.add 0 xs) / inject_Z (Z.of_nat (List.length xs)).

(** [SELECT genre_name, AVG(popularity) ... GROUP BY genre_name]; SQL leaves
    the order of the groups open, here it is that of first appearance. *)
Definition group_avg (l : list (string * Z)) : frame :=
  map (fun k => (k, avg (map snd (filter (fun p => String.eqb (fst p) k) l))))
      (nodup string_dec (map fst l)).

Definition get_artist_popularity_per_genre (artist_id : Z) (d : DB) : frame :=
  group_avg (joined (fun s => song_artist_id s =? artist_id) d).

Definition get_overall_genre_popularity (d : DB) : frame :=
  group_avg (joined (fun _ => true) d).

Definition display_artist_vs_genre_popularity (artist_name : string) (w : World)
  : World :=
  let (artist_id, w) := get_artist_id artist_name w in
  match artist_id with
  | None => w
  | Some 0 => w
  | Some i =>
      let artist_df := get_artist_popularity_per_genre i (cur (conn w)) in
      let overall_df := get_overall_genre_popularity (cur (conn w)) in
      let w := print ("Popularity Comparison for Artist: " ++ artist_name) w in
      let w := emit (Display artist_df overall_df) w in
      emit (Show artist_df overall_df) w
  end.

Definition close_connection (w : World) : World :=
  mkWorld (snd (close (conn w))) (stdout w).

(** The script's main block, the user typing [typed] at the prompt on a
    database file holding [disk]. *)
Definition script (typed : string) (disk : DB) : World :=
  let analyzer := mkWorld (connect disk) [] in
  let w := emit (Prompt "Please enter the artist's name: ") analyzer in
  let w := display_artist_vs_genre_popularity typed w in
  let w := close_connection w in
  print "Program completed successfully!" w.

End Scripts.

End Artist.

(* ================================================================= *)
(** ** Vocabulary of the specification *)

Module Spec.

Import Py Sqlite3 Preprocessing.
Local Open Scope string_scope.
Local Open Scope Z_scope.

(** The constraints the schema declares (UNIQUE names, primary keys) and
    the references the loader maintains. *)
Record db_ok (d : DB) : Prop := mk_db_ok {
  artist_names_unique : NoDup (map row_name (rows (Artist d)));
  genre_names_unique : NoDup (map row_name (rows (Genre d)));
  artist_ids_unique : NoDup (map row_id (rows (Artist d)));
  genre_ids_unique : NoDup (map row_id (rows (Genre d)));
  song_ids_unique : NoDup (map song_id (rows (Song d)));
  song_genre_unique : NoDup (SongGenre d);
  song_has_artist :
    Forall (fun s => In (song_artist_id s) (map row_id (rows (Artist d))))
           (rows (Song d));
  song_genre_refs :
    Forall (fun p => In (fst p) (map song_id (rows (Song d)))
                     /\ In (snd p) (map row_id (rows (Genre d))))
           (SongGenre d)
}.

(** The four invariants of the data model, as the specification words
    them. *)
Definition schema_invariants (d : DB) : Prop :=
  NoDup (map row_name (rows (Artist d)))
  /\ NoDup (map row_name (rows (Genre d)))
  /\ (forall s, In s (rows (Song d)) ->
        exists! a, In a (rows (Artist d)) /\ row_id a = song_artist_id s)
  /\ (forall sid gid, In (sid, gid) (SongGenre d) ->
        (exists s, In s (rows (Song d)) /\ song_id s = sid)
        /\ (exists g, In g (rows (Genre d)) /\ row_id g = gid)).

(** Every state a connection holds or has held is well formed. *)
Definition inv (c : Conn) : Prop :=
  db_ok (cur c) /\ db_ok (durable c) /\ Forall (fun e => db_ok (event_db e)) (log c).

(** Every state the connection has been through, the newest first. *)
Definition states (c : Conn) : list DB :=
  cur c :: durable c :: map event_db (log c).

(** Number of commits a connection has performed. *)
Definition commits (c : Conn) : nat := List.length (filter is_commit (log c)).

(** Number of stored entities of a kind with a given key. *)
Definition count_key (t : table_name) (k : string) (d : DB) : nat :=
  List.length (filter (has_name k) (rows (get_table t d))).

(** Artists and genres a store holds. *)
Definition entities (d : DB) : nat :=
  List.length (rows (Artist d)) + List.length (rows (Genre d)).

(** The selection predicate of the filtering policy. *)
Definition accepts (r : CsvRow) : Prop :=
  50 < csv_popularity r
  /\ (33 # 100 <= csv_speechiness r)%Q
  /\ (csv_speechiness r <= 66 # 100)%Q
  /\ (20 # 100 < csv_danceability r)%Q.

Definition accepts_b (r : CsvRow) : bool := mask (rename_columns r).

(** What preprocessing makes of a CSV row that is kept. *)
Definition preprocess_row {RT : Runtime} (r : CsvRow) : Row :=
  standardize_artist (convert_duration (rename_columns r)).

(** Lower case on the ASCII letters, one character at a time: what
    [str.lower] does to a string of ASCII characters. *)
Definition ascii_lower_char (c : ascii) : ascii :=
  let n := nat_of_ascii c in
  if ((65 <=? n) && (n <=? 90))%nat then ascii_of_nat (n + 32) else c.

Fixpoint ascii_lower (s : string) : string :=
  match s with
  | EmptyString => EmptyString
  | String c s' => String (ascii_lower_char c) (ascii_lower s')
  end.

(** The runtime the examples are run with. *)
Definition ascii_runtime : Runtime := {| lower := ascii_lower |}.

(** ASCII lower case and underscore for space, one character at a time. *)
Definition canon_char (c : ascii) : ascii :=
  if Ascii.eqb (ascii_lower_char c) " "%char then "_"%char else ascii_lower_char c.

Definition space_to_underscore (c : ascii) : ascii :=
  if Ascii.eqb c " "%char then "_"%char else c.

Fixpoint map_string (f : ascii -> ascii) (s : string) : string :=
  match s with
  | EmptyString => EmptyString
  | String c s' => String (f c) (map_string f s')
  end.

(** The columns of a Song row that are copied from the data frame. *)
Definition song_of (i : Z) (r : Row) (aid : Z) : SongRow :=
  mkSong i (song r) (duration r) (int_of_bool (explicit r)) (year r)
         (popularity r) (danceability r) (speechiness r) aid.

(** The SongGenre pairs of one song. *)
Definition genres_of_song (sid : Z) (d : DB) : list (Z * Z) :=
  filter (fun p => fst p =? sid) (SongGenre d).

(** The rowid the next insertion into a name table receives, and the
    store after that insertion. *)
Definition fresh_id (t : table_name) (d : DB) : Z :=
  next_rowid (map row_id (rows (get_table t d))) (seq (get_table t d)).

Definition with_name (t : table_name) (v : string) (d : DB) : DB :=
  set_table t
    (mkTable (rows (get_table t d) ++ [mkName (fresh_id t d) v]) (fresh_id t d)) d.

Definition fresh_song_id (d : DB) : Z :=
  next_rowid (map song_id (rows (Song d))) (seq (Song d)).

Definition with_song (s : SongRow) (d : DB) : DB :=
  mkDB (Genre d) (Artist d) (mkTable (rows (Song d) ++ [s]) (song_id s)) (SongGenre d).

Definition with_pair (p : Z * Z) (d : DB) : DB :=
  mkDB (Genre d) (Artist d) (Song d) (SongGenre d ++ [p]).

(** The connection after [get_or_create_id] has created a row, after a
    Song row was inserted, and after a SongGenre pair was inserted. *)
Definition after_name (t : table_name) (v : string) (c : Conn) : Conn :=
  mkConn (with_name t v (cur c)) (with_name t v (cur c))
         (EvCommit (with_name t v (cur c)) :: EvInsert (with_name t v (cur c)) :: log c).

Definition after_song (s : SongRow) (c : Conn) : Conn :=
  mkConn (with_song s (cur c)) (durable c) (EvInsert (with_song s (cur c)) :: log c).

Definition after_pair (p : Z * Z) (c : Conn) : Conn :=
  mkConn (with_pair p (cur c)) (durable c) (EvInsert (with_pair p (cur c)) :: log c).

(** Properties of a connection that no insertion of the loader undoes. *)
Record stable (F : Conn -> Prop) : Prop := mk_stable {
  stable_name : forall t v c, F c -> F (after_name t v c);
  stable_song : forall s c, F c -> F (after_song s c);
  stable_pair : forall p c, F c -> F (after_pair p c)
}.

(** The connections the loader can reach from [c] by its insertions. *)
Inductive steps (c : Conn) : Conn -> Prop :=
| steps_refl : steps c c
| steps_name t v c' : steps c c' -> steps c (after_name t v c')
| steps_song s c' : steps c c' -> steps c (after_song s c')
| steps_pair p c' : steps c c' -> steps c (after_pair p c').

(** Commits performed minus artists and genres held: the loader's
    insertions keep it constant. *)
Definition commit_balance (c : Conn) : Z :=
  Z.of_nat (commits c) - Z.of_nat (entities (cur c)).

(** No Artist or Genre row is waiting for a commit. *)
Definition names_durable (c : Conn) : Prop :=
  Artist (durable c) = Artist (cur c) /\ Genre (durable c) = Genre (cur c).

(** The Song row [s] is committed. *)
Definition song_durable (s : SongRow) (c : Conn) : Prop :=
  In s (rows (Song (durable c))) /\ In s (rows (Song (cur c))).

(** The example row of the specification: as the CSV file has it, and as
    the loader receives it. *)
Definition example_csv_row : CsvRow :=
  mkCsv "X" "Foo Bar" "pop, rock" 200000 false 2005 70 (1 # 2) (1 # 2).

Definition example_row : Row :=
  mkRow "X" "foo_bar" "pop, rock" 200 false 2005 70 (1 # 2) (1 # 2).

(** The row [r] with the text [g] in its genre field. *)
Definition with_genre (g : string) (r : Row) : Row :=
  mkRow (song r) (artist r) g (duration r) (explicit r) (year r)
        (popularity r) (danceability r) (speechiness r).

(** What Python reports when [split] is asked of a float. *)
Definition no_split : exn :=
  AttributeError "'float' object has no attribute 'split'".

(** A row whose genre field is the empty string. *)
Definition no_genre_row : Row :=
  mkRow "X" "foo_bar" "" 200 false 2005 70 (1 # 2) (1 # 2).

(** [sep.join(l)], the inverse of [split]. *)
Fixpoint join (sep : string) (l : list string) : string :=
  match l with
  | [] => EmptyString
  | [x] => x
  | x :: l' => (x ++ sep ++ join sep l')%string
  end.

(** The genre tokens of a data-frame row, as the loader obtains them. *)
Definition tokens (r : Row) : list string := split ", " (genre r).

(** A table whose rowids are 1, 2, ..., n in insertion order, with its
    AUTOINCREMENT counter at n. *)
Definition consecutive (ids : list Z) (sq : Z) : Prop :=
  ids = map Z.of_nat (List.seq 1 (List.length ids))
  /\ sq = Z.of_nat (List.length ids).

(** What a loaded row leaves behind, up to the end of the run. *)
Definition linked (r : Row) (c : Conn) : Prop :=
  exists sid aid gid tok,
    In (song_of sid r aid) (rows (Song (cur c)))
    /\ In (mkName aid (artist r)) (rows (Artist (cur c)))
    /\ In (sid, gid) (SongGenre (cur c))
    /\ In (mkName gid tok) (rows (Genre (cur c))).

(** The SongGenre pairs of song [s] are those of the tokens of row [r]. *)
Definition links_of (c : Conn) (s : SongRow) (r : Row) : Prop :=
  song_name s = song r
  /\ exists gids,
       genres_of_song (song_id s) (cur c) = map (pair (song_id s)) gids
       /\ Forall2 (fun gid tok => In (mkName gid tok) (rows (Genre (cur c))))
                  gids (tokens r).

(** Two query results with the same rows, in whatever order. *)
Definition same_rows (f g : list (string * Q)) : Prop :=
  forall p, In p f <-> In p g.

(** A store in which an artist was given rowid 0 by hand. *)
Definition rowid_zero_db : DB :=
  mkDB (empty_table NameRow) (mkTable [mkName 0 "foo_bar"] 0)
       (empty_table SongRow) [].

(** Hoare triples over the connection: started in a state satisfying [P],
    [m] either returns [a] in a state satisfying [Q a] or raises in a state
    satisfying [E]. *)
Definition triple {A} (P : Conn -> Prop) (m : M A)
           (Q : A -> Conn -> Prop) (E : Conn -> Prop) : Prop :=
  forall c, P c ->
    match m c with
    | (Returned a, c') => Q a c'
    | (Raised _, c') => E c'
    end.

End Spec.

(* ================================================================= *)
(** ** Properties *)

Import Py Sqlite3 Preprocessing Spec.
Local Open Scope string_scope.
Local Open Scope list_scope.
Local Open Scope Z_scope.

Section Properties.

Context {RT : Runtime}.

(** *** Strings *)

Lemma ascii_lower_map_string s : ascii_lower s = map_string ascii_lower_char s.
Proof. induction s as [|c s IH]; simpl; congruence. Qed.

Lemma replace_space_map_string s :
  replace " " "_" s = map_string space_to_underscore s.
Proof.
  unfold replace, space_to_underscore.
  induction s as [|c s IH]; [reflexivity|].
  cbn [replace_from map_string prefix String.length Nat.sub].
  destruct (ascii_dec " " c) as [<-|Hne].
  - replace (prefix "" s) with true by (now destruct s).
    now rewrite IH.
  - rewrite IH. destruct (Ascii.eqb_spec c " "%char) as [->|_]; [contradiction|].
    reflexivity.
Qed.

Lemma map_string_compose f g s :
  map_string f (map_string g s) = map_string (fun c => f (g c)) s.
Proof. induction s as [|c s IH]; simpl; congruence. Qed.

Lemma map_string_length f s : String.length (map_string f s) = String.length s.
Proof. induction s as [|c s IH]; simpl; congruence. Qed.

Lemma in_map_string f s c :
  In c (list_ascii_of_string (map_string f s)) ->
  exists c0, In c0 (list_ascii_of_string s) /\ c = f c0.
Proof.
  induction s as [|x s IH]; cbn; [tauto|].
  intros [<-|H].
  - exists x. split; [now left|reflexivity].
  - destruct (IH H) as (c0 & H0 & ->). exists c0. split; [now right|reflexivity].
Qed.

Lemma canonicalize_spaces s :
  canonicalize s = map_string space_to_underscore (lower s).
Proof. unfold canonicalize. apply replace_space_map_string. Qed.

Lemma canonicalize_ascii s :
  lower s = ascii_lower s -> canonicalize s = map_string canon_char s.
Proof.
  intros E. rewrite canonicalize_spaces, E, ascii_lower_map_string.
  rewrite map_string_compose. reflexivity.
Qed.

Lemma space_to_underscore_idempotent c :
  space_to_underscore (space_to_underscore c) = space_to_underscore c.
Proof.
  unfold space_to_underscore.
  destruct (Ascii.eqb_spec c " "%char) as [->|Hne]; [reflexivity|].
  now destruct (Ascii.eqb_spec c " "%char).
Qed.

Lemma space_to_underscore_no_space c : space_to_underscore c <> " "%char.
Proof.
  unfold space_to_underscore.
  destruct (Ascii.eqb_spec c " "%char) as [->|Hne]; [discriminate|assumption].
Qed.

Lemma replace_canonicalize s : replace " " "_" (canonicalize s) = canonicalize s.
Proof.
  rewrite canonicalize_spaces, replace_space_map_string, map_string_compose.
  induction (lower s) as [|c t IH]; simpl; [reflexivity|].
  now rewrite space_to_underscore_idempotent, IH.
Qed.

Lemma canonicalize_idempotent s :
  lower (canonicalize s) = canonicalize s ->
  canonicalize (canonicalize s) = canonicalize s.
Proof.
  intros E. unfold canonicalize at 1. rewrite E. apply replace_canonicalize.
Qed.

Lemma split_from_nonempty sep s : forall skip tok, split_from sep skip tok s <> [].
Proof.
  induction s as [|c s IH]; intros skip tok; cbn [split_from]; [discriminate|].
  destruct skip; [|apply IH].
  destruct (prefix sep (String c s)); [discriminate|apply IH].
Qed.

(** *** Rounding *)

Lemma to_seconds_div_mod ms :
  to_seconds ms =
  let q := ms / 1000 in
  let r := ms mod 1000 in
  if r <? 500 then q
  else if 500 <? r then q + 1
  else if Z.even q then q else q + 1.
Proof.
  unfold to_seconds, round_half_even.
  assert (Hf : Qfloor (inject_Z ms / inject_Z 1000) = ms / 1000).
  { unfold Qfloor, Qdiv, Qmult, Qinv, inject_Z. cbn. now rewrite Z.mul_1_r. }
  rewrite Hf. cbv zeta.
  pose proof (Z.div_mod ms 1000 ltac:(lia)) as Hdm.
  pose proof (Z.mod_pos_bound ms 1000 ltac:(lia)) as Hb.
  set (q := ms / 1000) in *. set (r := ms mod 1000) in *.
  assert (Hc : (inject_Z ms / inject_Z 1000 - inject_Z q ?= 1 # 2)%Q
               = (r ?= 500)).
  { unfold Qcompare, Qdiv, Qmult, Qinv, Qminus, Qplus, Qopp, inject_Z. cbn.
    rewrite Hdm.
    destruct (Z.compare_spec r 500) as [H|H|H].
    - apply Z.compare_eq_iff. lia.
    - apply Z.compare_lt_iff. lia.
    - apply Z.compare_gt_iff. lia. }
  rewrite Hc.
  destruct (Z.compare_spec r 500) as [H|H|H].
  - replace (r <? 500) with false by (symmetry; apply Z.ltb_ge; lia).
    replace (500 <? r) with false by (symmetry; apply Z.ltb_ge; lia).
    reflexivity.
  - replace (r <? 500) with true by (symmetry; apply Z.ltb_lt; lia).
    reflexivity.
  - replace (r <? 500) with false by (symmetry; apply Z.ltb_ge; lia).
    replace (500 <? r) with true by (symmetry; apply Z.ltb_lt; lia).
    reflexivity.
Qed.

Lemma to_seconds_nearest ms : Z.abs (1000 * to_seconds ms - ms) <= 500.
Proof.
  rewrite to_seconds_div_mod. cbv zeta.
  pose proof (Z.div_mod ms 1000 ltac:(lia)) as Hdm.
  pose proof (Z.mod_pos_bound ms 1000 ltac:(lia)) as Hb.
  destruct (Z.ltb_spec (ms mod 1000) 500);
    [|destruct (Z.ltb_spec 500 (ms mod 1000)); [|destruct (Z.even (ms / 1000))]];
    lia.
Qed.

(** *** The connection monad *)

Lemma bind_inv A B (m : M A) (k : A -> M B) c o c' :
  bind m k c = (o, c') ->
  (exists e, m c = (Raised e, c') /\ o = Raised e)
  \/ (exists a c1, m c = (Returned a, c1) /\ k a c1 = (o, c')).
Proof.
  unfold bind. destruct (m c) as [[a|e] c1]; intros H.
  - right. now exists a, c1.
  - left. exists e. now inversion H.
Qed.

Lemma bind_returned A B (m : M A) (k : A -> M B) c b c' :
  bind m k c = (Returned b, c') ->
  exists a c1, m c = (Returned a, c1) /\ k a c1 = (Returned b, c').
Proof.
  intros H. apply bind_inv in H as [(e & _ & He)|H]; [discriminate|exact H].
Qed.

Lemma triple_ret A (a : A) (P : Conn -> Prop) Q E :
  (forall c, P c -> Q a c) -> triple P (ret a) Q E.
Proof. intros H c Hc. now apply H. Qed.

Lemma triple_bind A B (m : M A) (k : A -> M B) P R Q E :
  triple P m R E -> (forall a, triple (R a) (k a) Q E) -> triple P (bind m k) Q E.
Proof.
  intros Hm Hk c Hc. specialize (Hm c Hc). unfold bind.
  destruct (m c) as [[a|e] c1]; [now apply Hk|exact Hm].
Qed.

Lemma triple_weaken A (m : M A) (P P' : Conn -> Prop) (Q Q' : A -> Conn -> Prop)
      (E E' : Conn -> Prop) :
  triple P m Q E ->
  (forall c, P' c -> P c) -> (forall a c, Q a c -> Q' a c) -> (forall c, E c -> E' c) ->
  triple P' m Q' E'.
Proof.
  intros H HP HQ HE c Hc. specialize (H c (HP c Hc)).
  destruct (m c) as [[a|e] c1]; auto.
Qed.

Lemma triple_for_each A (body : A -> M unit) (I E : Conn -> Prop) l :
  (forall x, In x l -> triple I (body x) (fun _ => I) E) ->
  triple I (for_each l body) (fun _ => I) E.
Proof.
  induction l as [|x l IH]; intros Hb; simpl.
  - now apply triple_ret.
  - apply triple_bind with (R := fun _ => I).
    + apply Hb. now left.
    + intros _. apply IH. intros y Hy. apply Hb. now right.
Qed.

(** *** Row identifiers *)

Lemma max_id_ge ids x : In x ids -> x <= max_id ids.
Proof.
  induction ids as [|y ids IH]; simpl; [tauto|].
  intros [->|H]; [|specialize (IH H)]; lia.
Qed.

Lemma next_rowid_fresh ids sq : ~ In (next_rowid ids sq) ids.
Proof. intros H. apply max_id_ge in H. unfold next_rowid in H. lia. Qed.

Lemma NoDup_snoc A (l : list A) x : NoDup l -> ~ In x l -> NoDup (l ++ [x]).
Proof.
  intros Hl Hx. apply NoDup_app; [assumption|repeat constructor; intros []|].
  intros a Ha [<-|[]]. contradiction.
Qed.

Lemma NoDup_map_injective A B (f : A -> B) l x y :
  NoDup (map f l) -> In x l -> In y l -> f x = f y -> x = y.
Proof.
  induction l as [|a l IH]; simpl; [tauto|].
  intros Hnd Hx Hy Hf. inversion Hnd as [|? ? Hna Hnd']; subst.
  destruct Hx as [->|Hx], Hy as [->|Hy]; auto.
  - exfalso. apply Hna. rewrite Hf. now apply in_map.
  - exfalso. apply Hna. rewrite <- Hf. now apply in_map.
Qed.

Lemma find_has_name_none v l :
  find (has_name v) l = None <-> ~ In v (map row_name l).
Proof.
  induction l as [|r l IH]; simpl; [tauto|].
  unfold has_name at 1. destruct (String.eqb_spec (row_name r) v) as [->|Hne].
  - split; [discriminate|]. intros H. exfalso. apply H. now left.
  - rewrite IH. tauto.
Qed.

Lemma find_has_name_some v l r :
  find (has_name v) l = Some r -> In r l /\ row_name r = v.
Proof.
  intros H. apply find_some in H as [Hin Hn]. split; [assumption|].
  now apply String.eqb_eq.
Qed.

Lemma existsb_has_name_false v l :
  ~ In v (map row_name l) -> existsb (has_name v) l = false.
Proof.
  intros H. destruct (existsb (has_name v) l) eqn:Ex; [|reflexivity].
  apply existsb_exists in Ex as (r & Hin & Hr). exfalso. apply H.
  apply String.eqb_eq in Hr. subst v. now apply in_map.
Qed.

(** *** What each statement does *)

Lemma get_or_create_id_hit t v c r :
  find (has_name v) (rows (get_table t (cur c))) = Some r ->
  get_or_create_id t v c = (Returned (row_id r), c).
Proof.
  intros H. unfold get_or_create_id, bind, select_id, ret. now rewrite H.
Qed.

Lemma get_or_create_id_miss t v c :
  ~ In v (map row_name (rows (get_table t (cur c)))) ->
  get_or_create_id t v c = (Returned (fresh_id t (cur c)), after_name t v c).
Proof.
  intros H. unfold get_or_create_id, bind, select_id, ret, insert_name.
  rewrite (proj2 (find_has_name_none v _) H). cbn [option_map].
  now rewrite (existsb_has_name_false _ _ H).
Qed.

Lemma insert_song_eq r aid c :
  insert_song r aid c =
  (Returned (fresh_song_id (cur c)),
   after_song (song_of (fresh_song_id (cur c)) r aid) c).
Proof. reflexivity. Qed.

Lemma existsb_same_pair p l : existsb (same_pair p) l = true <-> In p l.
Proof.
  rewrite existsb_exists. unfold same_pair. split.
  - intros ([a b] & Hin & H). apply andb_true_iff in H as [H1 H2].
    apply Z.eqb_eq in H1, H2. destruct p; simpl in *. now subst.
  - intros H. exists p. split; [assumption|]. now rewrite !Z.eqb_refl.
Qed.

Lemma insert_song_genre_new sid gid c :
  ~ In (sid, gid) (SongGenre (cur c)) ->
  insert_song_genre sid gid c = (Returned tt, after_pair (sid, gid) c).
Proof.
  intros H. unfold insert_song_genre.
  destruct (existsb (same_pair (sid, gid)) (SongGenre (cur c))) eqn:Ex.
  - apply existsb_same_pair in Ex. contradiction.
  - reflexivity.
Qed.

Lemma insert_song_genre_dup sid gid c :
  In (sid, gid) (SongGenre (cur c)) ->
  insert_song_genre sid gid c = (Raised (IntegrityError "PRIMARY KEY"), c).
Proof.
  intros H. unfold insert_song_genre.
  now rewrite (proj2 (existsb_same_pair _ _) H).
Qed.

Lemma pair_in_dec (p : Z * Z) l : {In p l} + {~ In p l}.
Proof. apply in_dec. decide equality; apply Z.eq_dec. Qed.

Lemma insert_song_genre_cases sid gid c :
  (In (sid, gid) (SongGenre (cur c))
   /\ insert_song_genre sid gid c = (Raised (IntegrityError "PRIMARY KEY"), c))
  \/ (~ In (sid, gid) (SongGenre (cur c))
      /\ insert_song_genre sid gid c = (Returned tt, after_pair (sid, gid) c)).
Proof.
  destruct (pair_in_dec (sid, gid) (SongGenre (cur c))) as [H|H].
  - left. split; [assumption|now apply insert_song_genre_dup].
  - right. split; [assumption|now apply insert_song_genre_new].
Qed.

Lemma get_table_with_name t v d :
  get_table t (with_name t v d)
  = mkTable (rows (get_table t d) ++ [mkName (fresh_id t d) v]) (fresh_id t d).
Proof. now destruct t. Qed.

Lemma get_or_create_id_cases t v c :
  (exists r, In r (rows (get_table t (cur c))) /\ row_name r = v
             /\ get_or_create_id t v c = (Returned (row_id r), c))
  \/ (~ In v (map row_name (rows (get_table t (cur c))))
      /\ get_or_create_id t v c = (Returned (fresh_id t (cur c)), after_name t v c)).
Proof.
  destruct (find (has_name v) (rows (get_table t (cur c)))) as [r|] eqn:F.
  - left. exists r. destruct (find_has_name_some _ _ F) as [Hin Hn].
    repeat split; try assumption. now apply get_or_create_id_hit.
  - right. apply find_has_name_none in F. split; [assumption|].
    now apply get_or_create_id_miss.
Qed.

(** [get_or_create_id] always returns, and the identifier it returns is
    that of a stored row carrying exactly the key it was given. *)
Lemma get_or_create_id_returns t v c :
  exists i c',
    get_or_create_id t v c = (Returned i, c')
    /\ In (mkName i v) (rows (get_table t (cur c'))).
Proof.
  destruct (get_or_create_id_cases t v c) as [(r & Hin & Hn & E)|(Hv & E)].
  - exists (row_id r), c. split; [exact E|]. destruct r; cbn in *. now subst.
  - eexists _, _. split; [exact E|]. cbn [cur after_name].
    rewrite get_table_with_name. cbn. apply in_or_app. right. now left.
Qed.

(** What [get_or_create_id] leaves alone. *)
Lemma get_or_create_id_frame t v c o c' :
  get_or_create_id t v c = (o, c') ->
  Song (cur c') = Song (cur c)
  /\ SongGenre (cur c') = SongGenre (cur c)
  /\ incl (rows (Genre (cur c))) (rows (Genre (cur c')))
  /\ incl (rows (Artist (cur c))) (rows (Artist (cur c')))
  /\ (t = TGenre -> Artist (cur c') = Artist (cur c))
  /\ (t = TArtist -> Genre (cur c') = Genre (cur c)).
Proof.
  intros H.
  destruct (get_or_create_id_cases t v c) as [(r & Hin & Hn & E)|(Hv & E)];
    rewrite E in H; inversion H; subst; clear H.
  - repeat split; apply incl_refl.
  - destruct t; cbn; repeat split;
      try apply incl_refl; try apply incl_appl, incl_refl; discriminate.
Qed.

(** *** The store stays well formed *)

Lemma db_ok_empty : db_ok empty_db.
Proof. constructor; simpl; constructor. Qed.

Lemma db_ok_with_name t v d :
  db_ok d -> ~ In v (map row_name (rows (get_table t d))) -> db_ok (with_name t v d).
Proof.
  intros [H1 H2 H3 H4 H5 H6 H7 H8] Hv.
  pose proof (next_rowid_fresh (map row_id (rows (get_table t d))) (seq (get_table t d)))
    as Hfresh.
  destruct t; constructor; cbn in *; rewrite ?map_app; cbn;
    try assumption; try (apply NoDup_snoc; assumption).
  - eapply Forall_impl; [|exact H7]. cbn. intros s Hs. apply in_or_app. now left.
  - eapply Forall_impl; [|exact H8]. cbn. intros p [Hp1 Hp2]. split; [assumption|].
    apply in_or_app. now left.
Qed.

Lemma db_ok_with_song r aid d :
  db_ok d -> In aid (map row_id (rows (Artist d))) ->
  db_ok (with_song (song_of (fresh_song_id d) r aid) d).
Proof.
  intros [H1 H2 H3 H4 H5 H6 H7 H8] Ha.
  constructor; cbn; rewrite ?map_app; cbn; try assumption.
  - apply NoDup_snoc; [assumption|apply next_rowid_fresh].
  - apply Forall_app. split; [assumption|]. now repeat constructor.
  - eapply Forall_impl; [|exact H8]. cbn. intros p [Hp1 Hp2]. split; [|assumption].
    apply in_or_app. now left.
Qed.

Lemma db_ok_with_pair sid gid d :
  db_ok d ->
  In sid (map song_id (rows (Song d))) -> In gid (map row_id (rows (Genre d))) ->
  ~ In (sid, gid) (SongGenre d) ->
  db_ok (with_pair (sid, gid) d).
Proof.
  intros [H1 H2 H3 H4 H5 H6 H7 H8] Hs Hg Hn.
  constructor; cbn; try assumption.
  - now apply NoDup_snoc.
  - apply Forall_app. split; [assumption|]. now repeat constructor.
Qed.

Lemma db_ok_schema_invariants d : db_ok d -> schema_invariants d.
Proof.
  intros [H1 H2 H3 H4 H5 H6 H7 H8]. repeat split; try assumption.
  - intros s Hs. rewrite Forall_forall in H7. specialize (H7 s Hs).
    apply in_map_iff in H7 as (a & Ha & Hin). exists a. split; [now split|].
    intros a' [Hin' Ha'].
    apply (@NoDup_map_injective _ _ row_id (rows (Artist d))); congruence.
  - rewrite Forall_forall in H8. apply H8 in H as [H _].
    apply in_map_iff in H as (s & Hs & Hin). now exists s.
  - rewrite Forall_forall in H8. apply H8 in H as [_ H].
    apply in_map_iff in H as (g & Hg & Hin). now exists g.
Qed.

Ltac split_inv :=
  unfold inv, after_name, after_song, after_pair; cbn [cur durable log];
  split; [|split]; try assumption;
  repeat (apply Forall_cons; [cbn [event_db]; assumption|]); try assumption.

Lemma inv_after_name t v c :
  inv c -> ~ In v (map row_name (rows (get_table t (cur c)))) -> inv (after_name t v c).
Proof.
  intros (Hc & Hd & Hl) Hv.
  pose proof (db_ok_with_name t v Hc Hv) as Hok. split_inv.
Qed.

Lemma inv_after_song r aid c :
  inv c -> In aid (map row_id (rows (Artist (cur c)))) ->
  inv (after_song (song_of (fresh_song_id (cur c)) r aid) c).
Proof.
  intros (Hc & Hd & Hl) Ha.
  pose proof (@db_ok_with_song r aid _ Hc Ha) as Hok. split_inv.
Qed.

Lemma inv_after_pair sid gid c :
  inv c ->
  In sid (map song_id (rows (Song (cur c)))) ->
  In gid (map row_id (rows (Genre (cur c)))) ->
  ~ In (sid, gid) (SongGenre (cur c)) ->
  inv (after_pair (sid, gid) c).
Proof.
  intros (Hc & Hd & Hl) Hs Hg Hn.
  pose proof (@db_ok_with_pair sid gid _ Hc Hs Hg Hn) as Hok. split_inv.
Qed.

Lemma inv_connect disk : db_ok disk -> inv (connect disk).
Proof. intros H. unfold connect. split_inv. constructor. Qed.

(** *** Invariants of the load, whatever its outcome *)

Lemma stable_true : stable (fun _ => True).
Proof. now constructor. Qed.

Lemma stable_and F G : stable F -> stable G -> stable (fun c => F c /\ G c).
Proof.
  intros [F1 F2 F3] [G1 G2 G3]. constructor; intros; split; intuition auto.
Qed.

Lemma stable_has_song sid :
  stable (fun c => In sid (map song_id (rows (Song (cur c))))).
Proof.
  constructor; intros; cbn.
  - now destruct t.
  - rewrite map_app. apply in_or_app. now left.
  - assumption.
Qed.

Lemma triple_get_or_create_id t v F :
  stable F ->
  triple (fun c => inv c /\ F c)
         (get_or_create_id t v)
         (fun i c => inv c /\ F c /\ In i (map row_id (rows (get_table t (cur c)))))
         (fun c => inv c /\ F c).
Proof.
  intros HF c [Hinv Hf].
  destruct (get_or_create_id_cases t v c) as [(r & Hin & Hn & E)|(Hv & E)];
    rewrite E.
  - split; [assumption|]. split; [assumption|]. now apply in_map.
  - split; [now apply inv_after_name|]. split; [now apply HF|].
    cbn [cur after_name]. rewrite get_table_with_name. cbn. rewrite map_app.
    apply in_or_app. right. now left.
Qed.

Lemma triple_insert_song r aid F :
  stable F ->
  triple (fun c => inv c /\ F c /\ In aid (map row_id (rows (Artist (cur c)))))
         (insert_song r aid)
         (fun sid c => inv c /\ F c /\ In sid (map song_id (rows (Song (cur c)))))
         (fun c => inv c /\ F c).
Proof.
  intros HF c (Hinv & Hf & Ha). rewrite insert_song_eq.
  split; [now apply inv_after_song|]. split; [now apply HF|].
  cbn. rewrite map_app. apply in_or_app. right. now left.
Qed.

Lemma triple_insert_song_genre sid gid F :
  stable F ->
  triple (fun c => inv c
                   /\ (F c /\ In sid (map song_id (rows (Song (cur c)))))
                   /\ In gid (map row_id (rows (Genre (cur c)))))
         (insert_song_genre sid gid)
         (fun _ c => inv c /\ F c /\ In sid (map song_id (rows (Song (cur c)))))
         (fun c => inv c /\ F c).
Proof.
  intros HF c (Hinv & (Hf & Hs) & Hg).
  destruct (insert_song_genre_cases sid gid c) as [[Hin E]|[Hnin E]]; rewrite E.
  - now split.
  - split; [now apply inv_after_pair|]. split; [now apply HF|exact Hs].
Qed.

Lemma triple_link_genre sid g F :
  stable F ->
  triple (fun c => inv c /\ F c /\ In sid (map song_id (rows (Song (cur c)))))
         (link_genre sid g)
         (fun _ c => inv c /\ F c /\ In sid (map song_id (rows (Song (cur c)))))
         (fun c => inv c /\ F c).
Proof.
  intros HF. unfold link_genre. eapply triple_bind.
  - eapply triple_weaken.
    + apply (triple_get_or_create_id TGenre g
               (stable_and HF (stable_has_song sid))).
    + intros c H. exact H.
    + intros gid c H. exact H.
    + cbn. intros c H. tauto.
  - intros gid. apply (triple_insert_song_genre sid gid HF).
Qed.

Lemma triple_populate_row r F :
  stable F ->
  triple (fun c => inv c /\ F c) (populate_row r)
         (fun _ c => inv c /\ F c) (fun c => inv c /\ F c).
Proof.
  intros HF. unfold populate_row. eapply triple_bind.
  - apply (triple_get_or_create_id TArtist (artist r) HF).
  - intros aid. eapply triple_bind; [apply (triple_insert_song r aid HF)|].
    intros sid. eapply triple_weaken.
    + apply (@triple_for_each _ (link_genre sid)
               (fun c => inv c /\ F c /\ In sid (map song_id (rows (Song (cur c)))))
               (fun c => inv c /\ F c)).
      intros g _. apply (triple_link_genre sid g HF).
    + intros c H. exact H.
    + cbn. intros u c H. tauto.
    + intros c H. exact H.
Qed.

Lemma triple_rows data F :
  stable F ->
  triple (fun c => inv c /\ F c) (for_each data populate_row)
         (fun _ c => inv c /\ F c) (fun c => inv c /\ F c).
Proof.
  intros HF. apply triple_for_each. intros r _. now apply triple_populate_row.
Qed.

Lemma triple_commit : triple inv commit (fun _ => inv) inv.
Proof. intros c (Hc & Hd & Hl). cbn. split_inv. Qed.

Lemma triple_populate_database data :
  triple inv (populate_database data) (fun _ => inv) inv.
Proof.
  unfold populate_database. eapply triple_bind.
  - eapply triple_weaken.
    + apply (triple_rows data stable_true).
    + intros c H. exact (conj H I).
    + intros u c H. exact (proj1 H).
    + intros c H. exact (proj1 H).
  - intros u. apply triple_commit.
Qed.

Lemma triple_main_body data :
  triple inv
         (bind create_tables (fun _ =>
          bind (populate_database data) (fun _ => close_connection)))
         (fun _ => inv) inv.
Proof.
  eapply triple_bind; [apply triple_commit|]. intros u.
  eapply triple_bind; [apply triple_populate_database|]. intros u'.
  intros c (Hc & Hd & Hl). cbn. split_inv.
Qed.

(** *** Where a run can lead *)

Lemma steps_trans c1 c2 c3 : steps c1 c2 -> steps c2 c3 -> steps c1 c3.
Proof.
  intros H12 H23. induction H23.
  - assumption.
  - now apply steps_name.
  - now apply steps_song.
  - now apply steps_pair.
Qed.

Lemma stable_steps F c c' : stable F -> steps c c' -> F c -> F c'.
Proof.
  intros [F1 F2 F3] H Hc. induction H; auto.
Qed.

Lemma steps_get_or_create_id t v c o c' :
  get_or_create_id t v c = (o, c') -> steps c c'.
Proof.
  intros H.
  destruct (get_or_create_id_cases t v c) as [(r & _ & _ & E)|(_ & E)];
    rewrite E in H; inversion H; subst.
  - apply steps_refl.
  - apply steps_name, steps_refl.
Qed.

Lemma steps_insert_song_genre sid gid c o c' :
  insert_song_genre sid gid c = (o, c') -> steps c c'.
Proof.
  intros H.
  destruct (insert_song_genre_cases sid gid c) as [[_ E]|[_ E]];
    rewrite E in H; inversion H; subst.
  - apply steps_refl.
  - apply steps_pair, steps_refl.
Qed.

Lemma steps_bind A B (m : M A) (k : A -> M B) c o c' :
  (forall o1 c1, m c = (o1, c1) -> steps c c1) ->
  (forall a c1 o2 c2, k a c1 = (o2, c2) -> steps c1 c2) ->
  bind m k c = (o, c') -> steps c c'.
Proof.
  intros Hm Hk H. apply bind_inv in H as [(e & E & _)|(a & c1 & E & E')].
  - eapply Hm. exact E.
  - eapply steps_trans; [eapply Hm; exact E|eapply Hk; exact E'].
Qed.

Lemma steps_for_each A (body : A -> M unit) l :
  (forall x c o c', body x c = (o, c') -> steps c c') ->
  forall c o c', for_each l body c = (o, c') -> steps c c'.
Proof.
  intros Hb. induction l as [|x l IH]; intros c o c' H; simpl in H.
  - inversion H; subst. apply steps_refl.
  - eapply steps_bind; [| |exact H].
    + intros o1 c1. apply Hb.
    + intros u c1 o2 c2. apply IH.
Qed.

Lemma steps_link_genre sid g c o c' : link_genre sid g c = (o, c') -> steps c c'.
Proof.
  apply steps_bind.
  - intros o1 c1. apply steps_get_or_create_id.
  - intros gid c1 o2 c2. apply steps_insert_song_genre.
Qed.

Lemma steps_link_genres sid toks c o c' :
  for_each toks (link_genre sid) c = (o, c') -> steps c c'.
Proof. apply steps_for_each. intros g. apply steps_link_genre. Qed.

Lemma steps_populate_row r c o c' : populate_row r c = (o, c') -> steps c c'.
Proof.
  apply steps_bind.
  - intros o1 c1. apply steps_get_or_create_id.
  - intros aid c1 o2 c2. apply steps_bind.
    + intros o3 c3 H. rewrite insert_song_eq in H. inversion H; subst.
      apply steps_song, steps_refl.
    + intros sid c3 o4 c4. apply steps_for_each. intros g. apply steps_link_genre.
Qed.

Lemma steps_rows data c o c' :
  for_each data populate_row c = (o, c') -> steps c c'.
Proof. apply steps_for_each. intros r. apply steps_populate_row. Qed.

Lemma stable_holds_artist a : stable (fun c => In a (rows (Artist (cur c)))).
Proof.
  constructor; intros; cbn; try assumption.
  destruct t; cbn; [apply in_or_app; now left|assumption].
Qed.

Lemma stable_holds_genre g : stable (fun c => In g (rows (Genre (cur c)))).
Proof.
  constructor; intros; cbn; try assumption.
  destruct t; cbn; [assumption|apply in_or_app; now left].
Qed.

Lemma stable_holds_row t x : stable (fun c => In x (rows (get_table t (cur c)))).
Proof. destruct t; [apply stable_holds_artist|apply stable_holds_genre]. Qed.

Lemma steps_keeps_row t x c c' :
  steps c c' ->
  In x (rows (get_table t (cur c))) -> In x (rows (get_table t (cur c'))).
Proof.
  intros H.
  apply (@stable_steps (fun c => In x (rows (get_table t (cur c)))) c c'
                       (stable_holds_row t x) H).
Qed.

Lemma entities_with_name t v d : entities (with_name t v d) = S (entities d).
Proof.
  unfold entities. destruct t; cbn; rewrite length_app; cbn; lia.
Qed.

Lemma stable_commit_balance k : stable (fun c => commit_balance c = k).
Proof.
  constructor; intros; unfold commit_balance, commits in *;
    cbn [after_name after_song after_pair cur log filter is_commit List.length].
  - rewrite entities_with_name. lia.
  - assumption.
  - assumption.
Qed.

(** *** What a completed load has stored *)

Lemma link_genre_returned sid g c c' :
  link_genre sid g c = (Returned tt, c') ->
  exists gid c1,
    get_or_create_id TGenre g c = (Returned gid, c1)
    /\ In (mkName gid g) (rows (Genre (cur c1)))
    /\ ~ In (sid, gid) (SongGenre (cur c1))
    /\ c' = after_pair (sid, gid) c1.
Proof.
  intros H. apply bind_returned in H as (gid & c1 & E & E').
  destruct (get_or_create_id_returns TGenre g c) as (i & c0 & E0 & Hin).
  rewrite E in E0. inversion E0; subst i c0; clear E0.
  exists gid, c1. repeat split; try assumption.
  - intros Hdup. rewrite (insert_song_genre_dup _ _ _ Hdup) in E'. discriminate.
  - destruct (insert_song_genre_cases sid gid c1) as [[_ E1]|[_ E1]];
      rewrite E1 in E'; now inversion E'.
Qed.

Lemma link_genres_returned sid toks :
  forall c c',
    for_each toks (link_genre sid) c = (Returned tt, c') ->
    exists gids,
      SongGenre (cur c') = SongGenre (cur c) ++ map (pair sid) gids
      /\ Forall2 (fun gid tok => In (mkName gid tok) (rows (Genre (cur c'))))
                 gids toks
      /\ Song (cur c') = Song (cur c)
      /\ Artist (cur c') = Artist (cur c).
Proof.
  induction toks as [|tok toks IH]; intros c c' H; simpl in H.
  - inversion H; subst. exists []. rewrite app_nil_r. repeat split. constructor.
  - apply bind_returned in H as ([] & c1 & E & E').
    apply link_genre_returned in E as (gid & c0 & Eg & Hin & _ & ->).
    destruct (get_or_create_id_frame _ _ _ Eg) as (HS & HSG & _ & _ & HA & _).
    destruct (IH _ _ E') as (gids & H1 & H2 & H3 & H4).
    exists (gid :: gids). cbn in H1, H3, H4. repeat split.
    + rewrite H1, HSG. cbn. now rewrite <- app_assoc.
    + constructor; [|assumption].
      eapply steps_keeps_row with (t := TGenre);
        [eapply steps_link_genres; exact E'|exact Hin].
    + now rewrite H3.
    + rewrite H4. now apply HA.
Qed.

Lemma populate_row_returned r c c' :
  populate_row r c = (Returned tt, c') ->
  exists aid c1 gids,
    get_or_create_id TArtist (artist r) c = (Returned aid, c1)
    /\ In (mkName aid (artist r)) (rows (Artist (cur c1)))
    /\ Artist (cur c') = Artist (cur c1)
    /\ rows (Song (cur c'))
       = rows (Song (cur c)) ++ [song_of (fresh_song_id (cur c)) r aid]
    /\ SongGenre (cur c')
       = SongGenre (cur c) ++ map (pair (fresh_song_id (cur c))) gids
    /\ Forall2 (fun gid tok => In (mkName gid tok) (rows (Genre (cur c'))))
               gids (split ", " (genre r)).
Proof.
  intros H. apply bind_returned in H as (aid & c1 & E & H).
  apply bind_returned in H as (sid & c2 & E2 & H).
  rewrite insert_song_eq in E2. inversion E2; subst sid c2; clear E2.
  destruct (get_or_create_id_returns TArtist (artist r) c) as (i & c0 & E0 & Hin).
  rewrite E in E0. inversion E0; subst i c0; clear E0.
  destruct (get_or_create_id_frame _ _ _ E) as (HS & HSG & _ & _ & _ & _).
  apply link_genres_returned in H as (gids & H1 & H2 & H3 & H4).
  cbn in H1, H3, H4.
  assert (Hf : fresh_song_id (cur c1) = fresh_song_id (cur c))
    by (unfold fresh_song_id; now rewrite HS).
  exists aid, c1, gids. repeat split; try assumption.
  - rewrite H3. cbn. now rewrite HS, Hf.
  - now rewrite H1, HSG, Hf.
Qed.

(** The copied columns of a Song row. *)
Lemma song_of_columns i r aid :
  song_name (song_of i r aid) = song r
  /\ song_duration (song_of i r aid) = duration r
  /\ song_artist_id (song_of i r aid) = aid.
Proof. now repeat split. Qed.

Lemma rows_returned data :
  forall c c',
    for_each data populate_row c = (Returned tt, c') ->
    exists news,
      rows (Song (cur c')) = rows (Song (cur c)) ++ news
      /\ Forall2 (fun s r => exists i aid,
                    s = song_of i r aid
                    /\ In (mkName aid (artist r)) (rows (Artist (cur c'))))
                 news data.
Proof.
  induction data as [|r data IH]; intros c c' H; simpl in H.
  - inversion H; subst. exists []. rewrite app_nil_r. split; constructor.
  - apply bind_returned in H as ([] & c1 & E & E').
    pose proof (steps_rows _ _ E') as Hsteps.
    apply populate_row_returned in E as (aid & c0 & gids & _ & Hin & HA & HS & _).
    destruct (IH _ _ E') as (news & H1 & H2).
    exists (song_of (fresh_song_id (cur c)) r aid :: news). split.
    + rewrite H1, HS. now rewrite <- app_assoc.
    + constructor; [|assumption]. exists (fresh_song_id (cur c)), aid.
      split; [reflexivity|].
      apply (steps_keeps_row TArtist _ Hsteps). cbn. now rewrite HA.
Qed.

Lemma artists_after_rows data :
  forall c c',
    for_each data populate_row c = (Returned tt, c') ->
    forall a, In a (rows (Artist (cur c'))) ->
              In a (rows (Artist (cur c)))
              \/ exists r, In r data /\ row_name a = artist r.
Proof.
  induction data as [|r data IH]; intros c c' H a Ha; simpl in H.
  - inversion H; subst. now left.
  - apply bind_returned in H as ([] & c1 & E & E').
    destruct (IH _ _ E' a Ha) as [Hin|(r' & Hr' & Hn)].
    + apply populate_row_returned in E as (aid & c0 & gids & Eg & _ & HA & _).
      rewrite HA in Hin.
      destruct (get_or_create_id_cases TArtist (artist r) c)
        as [(x & _ & _ & E0)|(_ & E0)]; rewrite E0 in Eg; inversion Eg; subst.
      * now left.
      * cbn in Hin. apply in_app_or in Hin as [Hin|[<-|[]]]; [now left|].
        right. exists r. split; [now left|reflexivity].
    + right. exists r'. split; [now right|assumption].
Qed.

Lemma populate_database_returned data c c' :
  populate_database data c = (Returned tt, c') ->
  exists c1,
    for_each data populate_row c = (Returned tt, c1)
    /\ c' = mkConn (cur c1) (cur c1) (EvCommit (cur c1) :: log c1).
Proof.
  intros H. apply bind_returned in H as ([] & c1 & E & E').
  exists c1. split; [assumption|]. now inversion E'.
Qed.

Lemma main_returned csv disk c' :
  main csv disk = (Returned tt, c') ->
  exists c1,
    for_each (load_and_preprocess_data csv) populate_row
             (mkConn disk disk [EvCommit disk]) = (Returned tt, c1)
    /\ c' = mkConn (cur c1) (cur c1) (EvCommit (cur c1) :: log c1).
Proof.
  unfold main. intros H. apply bind_returned in H as ([] & c0 & E0 & H).
  inversion E0; subst c0; clear E0. cbn [connect cur log] in H.
  apply bind_returned in H as ([] & c2 & E & H).
  apply populate_database_returned in E as (c1 & E & ->).
  exists c1. split; [assumption|]. now inversion H.
Qed.

(** *** When a load completes *)

Lemma link_genres_complete sid :
  forall toks done c,
    inv c ->
    In sid (map song_id (rows (Song (cur c)))) ->
    NoDup toks ->
    (forall t, In t toks -> ~ In t done) ->
    (forall gid, In (sid, gid) (SongGenre (cur c)) ->
                 exists tok, In tok done
                             /\ In (mkName gid tok) (rows (Genre (cur c)))) ->
    exists c', for_each toks (link_genre sid) c = (Returned tt, c').
Proof.
  induction toks as [|tok toks IH]; intros done c Hinv Hs Hnd Hdone Hpairs.
  - now exists c.
  - inversion Hnd as [|? ? Hnotin Hnd']; subst.
    destruct (get_or_create_id_returns TGenre tok c) as (gid & c0 & E & Hin).
    pose proof (@triple_get_or_create_id TGenre tok _ (stable_has_song sid) c
                  (conj Hinv Hs)) as T.
    rewrite E in T. destruct T as (Hinv0 & Hs0 & Hg0).
    destruct (get_or_create_id_frame _ _ _ E) as (HS & HSG & HG & _).
    assert (Hnew : ~ In (sid, gid) (SongGenre (cur c0))).
    { rewrite HSG. intros Hp. destruct (Hpairs gid Hp) as (tok' & Htok' & Hrow).
      apply HG in Hrow.
      assert (Heq : mkName gid tok' = mkName gid tok).
      { apply (@NoDup_map_injective _ _ row_id (rows (Genre (cur c0))));
          [apply (genre_ids_unique (proj1 Hinv0))|assumption|assumption|reflexivity]. }
      inversion Heq; subst tok'. apply (Hdone tok); [now left|assumption]. }
    assert (El : link_genre sid tok c = (Returned tt, after_pair (sid, gid) c0)).
    { unfold link_genre, bind. rewrite E. now apply insert_song_genre_new. }
    cbn [for_each]. unfold bind at 1. rewrite El.
    apply (IH (tok :: done)).
    + now apply inv_after_pair.
    + exact Hs0.
    + exact Hnd'.
    + intros t Ht [<-|Hd]; [contradiction|]. apply (Hdone t); [now right|assumption].
    + intros g' Hp. cbn in Hp. apply in_app_or in Hp as [Hp|[Hp|[]]].
      * rewrite HSG in Hp. destruct (Hpairs g' Hp) as (tok' & Htok' & Hrow).
        exists tok'. split; [now right|]. cbn. now apply HG.
      * inversion Hp; subst g'. exists tok. split; [now left|exact Hin].
Qed.

Lemma populate_row_complete r c :
  inv c -> NoDup (split ", " (genre r)) ->
  exists c', populate_row r c = (Returned tt, c').
Proof.
  intros Hinv Hnd.
  destruct (get_or_create_id_returns TArtist (artist r) c) as (aid & c1 & E & Hin).
  pose proof (@triple_get_or_create_id TArtist (artist r) _ stable_true c
                (conj Hinv I)) as T.
  rewrite E in T. destruct T as (Hinv1 & _ & Ha).
  unfold populate_row, bind. rewrite E, insert_song_eq.
  apply link_genres_complete with (done := []).
  - now apply inv_after_song.
  - cbn. rewrite map_app. apply in_or_app. right. now left.
  - exact Hnd.
  - intros t _ [].
  - intros gid Hp. exfalso. cbn in Hp.
    pose proof (song_genre_refs (proj1 Hinv1)) as Hrefs.
    rewrite Forall_forall in Hrefs. apply Hrefs in Hp as [Hp _]. cbn in Hp.
    exact (next_rowid_fresh _ _ Hp).
Qed.

Lemma rows_complete data :
  forall c,
    inv c -> Forall (fun r => NoDup (split ", " (genre r))) data ->
    exists c', for_each data populate_row c = (Returned tt, c').
Proof.
  induction data as [|r data IH]; intros c Hinv Hall.
  - now exists c.
  - inversion Hall as [|? ? Hr Hall']; subst.
    destruct (populate_row_complete r Hinv Hr) as (c1 & E).
    pose proof (@triple_populate_row r _ stable_true c (conj Hinv I)) as T.
    rewrite E in T. destruct T as [Hinv1 _].
    cbn [for_each]. unfold bind at 1. rewrite E. now apply IH.
Qed.

Lemma populate_database_complete data c :
  inv c -> Forall (fun r => NoDup (split ", " (genre r))) data ->
  exists c', populate_database data c = (Returned tt, c').
Proof.
  intros Hinv Hall. destruct (rows_complete Hinv Hall) as (c1 & E).
  unfold populate_database, bind. rewrite E. eexists. reflexivity.
Qed.

(** *** Looking a key up again *)

Lemma filter_has_name_absent k l :
  ~ In k (map row_name l) -> filter (has_name k) l = [].
Proof.
  induction l as [|r l IH]; cbn; [reflexivity|]. intros H.
  unfold has_name at 1. destruct (String.eqb_spec (row_name r) k) as [E|_].
  - exfalso. apply H. now left.
  - apply IH. intros Hin. apply H. now right.
Qed.

Lemma filter_has_name_unique k l :
  NoDup (map row_name l) -> In k (map row_name l) ->
  List.length (filter (has_name k) l) = 1%nat.
Proof.
  induction l as [|r l IH]; cbn; [tauto|]. intros Hnd Hin.
  inversion Hnd as [|? ? Hnotin Hnd']; subst.
  unfold has_name at 1. destruct (String.eqb_spec (row_name r) k) as [E|Hne].
  - subst k. now rewrite (filter_has_name_absent _ _ Hnotin).
  - destruct Hin as [E|Hin]; [contradiction|]. now apply IH.
Qed.

Lemma get_or_create_id_known t k i c :
  NoDup (map row_name (rows (get_table t (cur c)))) ->
  In (mkName i k) (rows (get_table t (cur c))) ->
  get_or_create_id t k c = (Returned i, c).
Proof.
  intros Hnd Hin.
  destruct (get_or_create_id_cases t k c) as [(r & Hr & Hn & E)|(Hv & _)].
  - rewrite E. do 2 f_equal.
    assert (Heq : r = mkName i k).
    { apply (@NoDup_map_injective _ _ row_name (rows (get_table t (cur c))));
        auto. }
    now rewrite Heq.
  - exfalso. apply Hv. apply (in_map row_name) in Hin. exact Hin.
Qed.

Lemma get_or_create_id_keeps_unique t k c o c' :
  NoDup (map row_name (rows (get_table t (cur c)))) ->
  get_or_create_id t k c = (o, c') ->
  NoDup (map row_name (rows (get_table t (cur c')))).
Proof.
  intros Hnd H.
  destruct (get_or_create_id_cases t k c) as [(r & _ & _ & E)|(Hv & E)];
    rewrite E in H; inversion H; subst; [assumption|].
  cbn [cur after_name]. rewrite get_table_with_name. cbn. rewrite map_app.
  now apply NoDup_snoc.
Qed.

Lemma inv_names_unique t c :
  inv c -> NoDup (map row_name (rows (get_table t (cur c)))).
Proof.
  intros [H _]. destruct t; [apply (artist_names_unique H)|apply (genre_names_unique H)].
Qed.

(** C1. Calling [get_or_create_id] twice with the same table and key
    returns the same identifier both times; the second call changes
    nothing, and exactly one stored row carries the key.  The same holds for
    any later call of the run, after more rows have been loaded. *)
Theorem get_or_create_id_twice (t : table_name) (k : string) (c : Conn) :
  NoDup (map row_name (rows (get_table t (cur c)))) ->
  exists i c1,
    get_or_create_id t k c = (Returned i, c1)
    /\ get_or_create_id t k c1 = (Returned i, c1)
    /\ count_key t k (cur c1) = 1%nat
    /\ forall data o c2,
         inv c1 -> for_each data populate_row c1 = (o, c2) ->
         get_or_create_id t k c2 = (Returned i, c2)
         /\ count_key t k (cur c2) = 1%nat.
Proof.
  intros Hnd.
  destruct (get_or_create_id_returns t k c) as (i & c1 & E & Hin).
  pose proof (get_or_create_id_keeps_unique _ _ _ Hnd E) as Hnd1.
  exists i, c1. split; [exact E|]. split; [now apply get_or_create_id_known|].
  split.
  - apply filter_has_name_unique; [assumption|].
    apply (in_map row_name) in Hin. exact Hin.
  - intros data o c2 Hinv Hrun.
    pose proof (@triple_rows data _ stable_true c1 (conj Hinv I)) as T.
    rewrite Hrun in T.
    assert (Hinv2 : inv c2) by (destruct o; apply T).
    pose proof (steps_keeps_row t _ (steps_rows _ _ Hrun) Hin) as Hin2.
    split.
    + apply get_or_create_id_known; [now apply inv_names_unique|assumption].
    + apply filter_has_name_unique; [now apply inv_names_unique|].
      apply (in_map row_name) in Hin2. exact Hin2.
Qed.

Lemma get_or_create_id_twice_witness :
  exists i c1,
    get_or_create_id TArtist "foo_bar" (connect empty_db) = (Returned i, c1)
    /\ get_or_create_id TArtist "foo_bar" c1 = (Returned i, c1)
    /\ count_key TArtist "foo_bar" (cur c1) = 1%nat
    /\ forall data o c2,
         inv c1 -> for_each data populate_row c1 = (o, c2) ->
         get_or_create_id TArtist "foo_bar" c2 = (Returned i, c2)
         /\ count_key TArtist "foo_bar" (cur c2) = 1%nat.
Proof.
  apply (get_or_create_id_twice TArtist "foo_bar" (connect empty_db)).
  simpl. constructor.
Defined.

(** *** Commits *)

Lemma commit_balance_rows data c o c' :
  for_each data populate_row c = (o, c') -> commit_balance c' = commit_balance c.
Proof.
  intros H.
  apply (@stable_steps (fun x => commit_balance x = commit_balance c) c c'
                       (stable_commit_balance (commit_balance c))
                       (steps_rows _ _ H)).
  reflexivity.
Qed.

Lemma stable_names_durable : stable names_durable.
Proof.
  constructor; unfold names_durable; intros; cbn; tauto.
Qed.

Lemma stable_song_durable s : stable (song_durable s).
Proof.
  constructor; unfold song_durable; intros; cbn.
  - destruct t; cbn; tauto.
  - split; [tauto|]. apply in_or_app. left. tauto.
  - tauto.
Qed.

Lemma link_genres_commit sid s toks :
  forall c c',
    for_each toks (link_genre sid) c = (Returned tt, c') ->
    In s (rows (Song (cur c))) ->
    (exists tok, In tok toks
                 /\ ~ In tok (map row_name (rows (Genre (cur c))))) ->
    In s (rows (Song (durable c'))).
Proof.
  induction toks as [|tok toks IH]; intros c c' H Hs (tok' & Hin & Hnew);
    [destruct Hin|].
  simpl in H. apply bind_returned in H as ([] & c1 & E & E').
  apply link_genre_returned in E as (gid & c0 & Eg & _ & _ & ->).
  destruct (get_or_create_id_cases TGenre tok c)
    as [(x & Hx & Hn & E0)|(_ & E0)]; rewrite E0 in Eg; inversion Eg; subst.
  - apply (IH _ _ E'); [exact Hs|].
    exists tok'. split; [|exact Hnew].
    destruct Hin as [<-|Hin]; [|exact Hin].
    exfalso. apply Hnew. apply (in_map row_name) in Hx. exact Hx.
  - apply (@stable_steps (song_durable s) _ c' (stable_song_durable s)
                         (steps_link_genres _ _ _ E')).
    split; cbn; exact Hs.
Qed.

Lemma populate_row_commit r c c' :
  populate_row r c = (Returned tt, c') ->
  (exists tok, In tok (split ", " (genre r))
               /\ ~ In tok (map row_name (rows (Genre (cur c))))) ->
  exists aid,
    In (song_of (fresh_song_id (cur c)) r aid) (rows (Song (durable c'))).
Proof.
  intros H Hnew. apply bind_returned in H as (aid & c1 & E & H).
  apply bind_returned in H as (sid & c2 & E2 & H).
  rewrite insert_song_eq in E2. inversion E2; subst sid c2; clear E2.
  destruct (get_or_create_id_frame _ _ _ E) as (HS & _ & _ & _ & _ & HG).
  assert (Hf : fresh_song_id (cur c1) = fresh_song_id (cur c))
    by (unfold fresh_song_id; now rewrite HS).
  exists aid. rewrite <- Hf.
  cbv zeta in H. eapply link_genres_commit; [exact H| |].
  - cbn. apply in_or_app. right. now left.
  - cbn. now rewrite (HG eq_refl).
Qed.

(** C2, as the code has it.  [get_or_create_id], when it does not find
    the key, inserts the row and commits right after the insertion, so that
    the new row and every earlier write of the run are durable when it
    returns; when it finds the key it writes nothing and commits nothing.
    During the loop over the rows no Artist or Genre row is ever left
    uncommitted, and the Song row of a row that brings a new genre is
    durable as soon as that row is loaded.  A completed run of
    [populate_database] ends with a commit, after which the committed state
    is the working state; the run performs one commit more than the number
    of artists and genres it added. *)
Theorem populate_database_commits :
  (forall t v c,
      ~ In v (map row_name (rows (get_table t (cur c)))) ->
      let d := with_name t v (cur c) in
      get_or_create_id t v c
      = (Returned (fresh_id t (cur c)),
         mkConn d d (EvCommit d :: EvInsert d :: log c)))
  /\ (forall t v c,
         In v (map row_name (rows (get_table t (cur c)))) ->
         exists i, get_or_create_id t v c = (Returned i, c))
  /\ (forall data c o c',
         for_each data populate_row c = (o, c') ->
         names_durable c -> names_durable c')
  /\ (forall r c c',
         populate_row r c = (Returned tt, c') ->
         (exists tok, In tok (split ", " (genre r))
                      /\ ~ In tok (map row_name (rows (Genre (cur c))))) ->
         exists aid,
           In (song_of (fresh_song_id (cur c)) r aid) (rows (Song (durable c'))))
  /\ (forall data c c',
         populate_database data c = (Returned tt, c') ->
         durable c' = cur c'
         /\ (exists l, log c' = EvCommit (cur c') :: l)
         /\ (commits c' + entities (cur c) = commits c + entities (cur c') + 1)%nat).
Proof.
  split; [|split; [|split; [|split]]].
  - intros t v c H. exact (get_or_create_id_miss t v c H).
  - intros t v c H.
    destruct (get_or_create_id_cases t v c) as [(r & _ & _ & E)|(Hv & _)];
      [now exists (row_id r)|contradiction].
  - intros data c o c' H.
    exact (@stable_steps names_durable c c' stable_names_durable (steps_rows _ _ H)).
  - exact populate_row_commit.
  - intros data c c' H. apply populate_database_returned in H as (c1 & E & ->).
    split; [reflexivity|]. split; [now eexists|].
    pose proof (commit_balance_rows _ _ E) as Hb.
    unfold commit_balance, commits in *. cbn. lia.
Qed.

Lemma populate_database_commits_witness :
  get_or_create_id TArtist "foo_bar" (connect empty_db)
  = (Returned 1,
     mkConn (with_name TArtist "foo_bar" empty_db)
            (with_name TArtist "foo_bar" empty_db)
            [EvCommit (with_name TArtist "foo_bar" empty_db);
             EvInsert (with_name TArtist "foo_bar" empty_db)])
  /\ exists c1 c',
       populate_row example_row (connect empty_db) = (Returned tt, c1)
       /\ (exists aid, In (song_of 1 example_row aid) (rows (Song (durable c1))))
       /\ names_durable c1
       /\ populate_database [example_row] (connect empty_db) = (Returned tt, c')
       /\ durable c' = cur c'
       /\ (commits c' + entities (cur (connect empty_db))
           = commits (connect empty_db) + entities (cur c') + 1)%nat.
Proof.
  destruct populate_database_commits as (H1 & _ & H3 & H4 & H5). split.
  - apply (H1 TArtist "foo_bar" (connect empty_db)). simpl. tauto.
  - assert (E1 : exists c1,
               populate_row example_row (connect empty_db) = (Returned tt, c1))
      by (eexists; vm_compute; reflexivity).
    destruct E1 as (c1 & E1).
    assert (E : exists c',
               populate_database [example_row] (connect empty_db) = (Returned tt, c'))
      by (eexists; vm_compute; reflexivity).
    destruct E as (c' & E).
    exists c1, c'. split; [exact E1|]. split; [|split; [|split; [exact E|]]].
    + apply (H4 example_row (connect empty_db) c1 E1).
      exists "pop". split; [vm_compute; tauto|simpl; tauto].
    + apply (H3 [example_row] (connect empty_db) (Returned tt) c1).
      * simpl. unfold bind. now rewrite E1.
      * split; reflexivity.
    + destruct (H5 [example_row] (connect empty_db) c' E) as (Ha & _ & Hc).
      split; assumption.
Defined.

(** C2, as the claim has it, fails: loading the example row into a fresh
    store, three commits have happened and the Song row is already durable
    when the loop over the rows ends, before the commit that closes
    [populate_database]. *)
Lemma commits_before_end_of_run :
  exists c1,
    for_each [example_row] populate_row (connect empty_db) = (Returned tt, c1)
    /\ commits c1 = 3%nat
    /\ List.length (rows (Song (durable c1))) = 1%nat
    /\ commits (snd (populate_database [example_row] (connect empty_db))) = 4%nat.
Proof.
  exists (snd (for_each [example_row] populate_row (connect empty_db))).
  vm_compute. repeat split.
Qed.

(** *** The invariants of the data model *)

Lemma inv_states c : inv c -> Forall schema_invariants (states c).
Proof.
  intros (Hc & Hd & Hl). unfold states.
  constructor; [now apply db_ok_schema_invariants|].
  constructor; [now apply db_ok_schema_invariants|].
  rewrite Forall_map. eapply Forall_impl; [|exact Hl].
  intros e He. now apply db_ok_schema_invariants.
Qed.

Lemma main_inv csv disk : db_ok disk -> inv (snd (main csv disk)).
Proof.
  intros Hok. unfold main.
  pose proof (@triple_main_body (load_and_preprocess_data csv) (connect disk)
                                (inv_connect Hok)) as T.
  destruct (bind create_tables _ (connect disk)) as [[u|e] c']; exact T.
Qed.

Lemma same_artist_one_row r1 r2 c' :
  artist r1 = artist r2 ->
  populate_database [r1; r2] (connect empty_db) = (Returned tt, c') ->
  List.length (rows (Artist (durable c'))) = 1%nat
  /\ List.length (rows (Song (durable c'))) = 2%nat.
Proof.
  intros Ha H. apply populate_database_returned in H as (c2 & E & ->).
  cbn [durable]. split.
  - cbn [for_each] in E.
    apply bind_returned in E as ([] & ca & E1 & E).
    apply bind_returned in E as ([] & cb & E2 & E).
    inversion E; subst cb; clear E.
    apply populate_row_returned in E1 as (aid1 & c1 & g1 & Eg1 & _ & HA1 & _).
    apply populate_row_returned in E2 as (aid2 & c1' & g2 & Eg2 & _ & HA2 & _).
    rewrite get_or_create_id_miss in Eg1 by (cbn; tauto).
    inversion Eg1; subst aid1 c1; clear Eg1.
    assert (Hin : In (mkName (fresh_id TArtist empty_db) (artist r2))
                     (rows (get_table TArtist (cur ca)))).
    { cbn [get_table]. rewrite HA1, <- Ha. cbn. now left. }
    assert (Hnd : NoDup (map row_name (rows (get_table TArtist (cur ca))))).
    { cbn [get_table]. rewrite HA1. cbn. repeat constructor. intros []. }
    rewrite (@get_or_create_id_known _ _ _ _ Hnd Hin) in Eg2.
    inversion Eg2; subst. now rewrite HA2, HA1.
  - apply rows_returned in E as (news & -> & HF). cbn.
    apply Forall2_length in HF. exact HF.
Qed.

(** C3. From a well-formed store, every state the pipeline goes through
    (the working state, the committed state, and the state after every
    write and every commit), whether the run completes or raises, has
    unique artist names, unique genre names, exactly one Artist row for
    every Song row, and an existing Song and Genre for every SongGenre
    pair.  Two rows with the same artist name, loaded into a fresh store,
    leave one Artist row and two Song rows; the load completes when neither
    row repeats a genre. *)
Theorem load_keeps_invariants :
  (forall csv disk,
      db_ok disk -> Forall schema_invariants (states (snd (main csv disk))))
  /\ (forall data c o c',
         inv c -> populate_database data c = (o, c') ->
         Forall schema_invariants (states c'))
  /\ (forall r1 r2,
         artist r1 = artist r2 ->
         (forall c',
             populate_database [r1; r2] (connect empty_db) = (Returned tt, c') ->
             List.length (rows (Artist (durable c'))) = 1%nat
             /\ List.length (rows (Song (durable c'))) = 2%nat)
         /\ (NoDup (split ", " (genre r1)) -> NoDup (split ", " (genre r2)) ->
             exists c',
               populate_database [r1; r2] (connect empty_db) = (Returned tt, c'))).
Proof.
  split; [|split].
  - intros csv disk Hok. apply inv_states. now apply main_inv.
  - intros data c o c' Hinv H. apply inv_states.
    pose proof (@triple_populate_database data c Hinv) as T.
    rewrite H in T. destruct o; exact T.
  - intros r1 r2 Ha. split.
    + intros c'. now apply same_artist_one_row.
    + intros H1 H2. apply populate_database_complete.
      * apply inv_connect, db_ok_empty.
      * now repeat constructor.
Qed.

(** *** Filtering and the duration column *)

Lemma accepts_b_iff r : accepts_b r = true <-> accepts r.
Proof.
  unfold accepts_b, accepts, mask, Qlt_bool.
  cbn [popularity speechiness danceability rename_columns].
  rewrite !andb_true_iff, Z.ltb_lt, !Qle_bool_iff, Qlt_alt.
  destruct (20 # 100 ?= csv_danceability r)%Q; intuition congruence.
Qed.

Lemma filter_map_commute A B (f : B -> bool) (g : A -> B) l :
  filter f (map g l) = map g (filter (fun x => f (g x)) l).
Proof.
  induction l as [|x l IH]; cbn; [reflexivity|].
  destruct (f (g x)); cbn; now rewrite IH.
Qed.

Lemma load_and_preprocess_data_eq csv :
  load_and_preprocess_data csv = map preprocess_row (filter accepts_b csv).
Proof.
  unfold load_and_preprocess_data. rewrite !filter_map_commute, !map_map.
  reflexivity.
Qed.

Lemma Forall2_map_right A B C (P : A -> C -> Prop) (f : B -> C) l1 l2 :
  Forall2 P l1 (map f l2) -> Forall2 (fun a b => P a (f b)) l1 l2.
Proof.
  revert l1. induction l2 as [|b l2 IH]; intros l1 H; cbn in H;
    inversion H; subst; constructor; auto.
Qed.

Lemma main_songs csv disk c' :
  main csv disk = (Returned tt, c') ->
  exists news,
    rows (Song (durable c')) = rows (Song disk) ++ news
    /\ Forall2 (fun s r => exists i aid,
                  s = song_of i (preprocess_row r) aid
                  /\ In (mkName aid (canonicalize (csv_artist r)))
                        (rows (Artist (durable c'))))
               news (filter accepts_b csv).
Proof.
  intros H. apply main_returned in H as (c1 & E & ->). cbn [durable].
  apply rows_returned in E as (news & E & HF). cbn in E.
  exists news. split; [assumption|].
  rewrite load_and_preprocess_data_eq in HF.
  apply Forall2_map_right in HF. exact HF.
Qed.

(** C4. A CSV row is kept exactly when popularity > 50, 0.33 <=
    speechiness <= 0.66 and danceability > 0.20; the data frame handed to the
    loader is made of the kept rows, in order; a completed run adds one
    Song row for each of them.  The bounds on popularity and danceability
    are strict, those on speechiness are not. *)
Theorem filtering_policy (csv : list CsvRow) :
  (forall r, accepts_b r = true <-> accepts r)
  /\ (forall r', In r' (load_and_preprocess_data csv)
                 <-> exists r, In r csv /\ accepts r /\ r' = preprocess_row r)
  /\ List.length (load_and_preprocess_data csv)
     = List.length (filter accepts_b csv)
  /\ (forall disk c',
         main csv disk = (Returned tt, c') ->
         List.length (rows (Song (durable c')))
         = (List.length (rows (Song disk)) + List.length (filter accepts_b csv))%nat)
  /\ (forall r, csv_popularity r = 50 -> ~ accepts r)
  /\ (forall r, (csv_danceability r == 20 # 100)%Q -> ~ accepts r)
  /\ (forall r, (csv_speechiness r == 33 # 100)%Q \/ (csv_speechiness r == 66 # 100)%Q ->
                50 < csv_popularity r -> (20 # 100 < csv_danceability r)%Q ->
                accepts r).
Proof.
  split; [exact accepts_b_iff|]. split; [|split; [|split; [|split; [|split]]]].
  - intros r'. rewrite load_and_preprocess_data_eq, in_map_iff. split.
    + intros (r & <- & Hin). apply filter_In in Hin as [Hin Hb].
      exists r. rewrite <- accepts_b_iff. auto.
    + intros (r & Hin & Hacc & ->). exists r. split; [reflexivity|].
      apply filter_In. rewrite accepts_b_iff. auto.
  - now rewrite load_and_preprocess_data_eq, length_map.
  - intros disk c' H. apply main_songs in H as (news & -> & HF).
    rewrite length_app. now rewrite (Forall2_length HF).
  - intros r Hp (H & _). lia.
  - intros r Hd (_ & _ & _ & H). rewrite Hd in H. now apply Qlt_irrefl in H.
  - intros r Hs Hp Hd. unfold accepts. split; [assumption|].
    destruct Hs as [Hs|Hs]; rewrite Hs; repeat split; try assumption;
      try apply Qle_refl; now compute.
Qed.

Lemma to_seconds_half_way k :
  to_seconds (1000 * k + 500) = if Z.even k then k else k + 1.
Proof.
  rewrite to_seconds_div_mod. cbv zeta.
  replace ((1000 * k + 500) / 1000) with k
    by (apply Z.div_unique with (r := 500); lia).
  replace ((1000 * k + 500) mod 1000) with 500
    by (apply Z.mod_unique with (q := k); lia).
  reflexivity.
Qed.

Lemma songs_durations news (l : list CsvRow) (Q : Z -> CsvRow -> Prop) :
  Forall2 (fun s r => exists i aid, s = song_of i (preprocess_row r) aid /\ Q aid r)
          news l ->
  map song_duration news = map (fun r => to_seconds (csv_duration_ms r)) l.
Proof.
  induction 1 as [|s r news l (i & aid & -> & _) _ IH]; cbn; [reflexivity|].
  now rewrite IH.
Qed.

(** C5. The duration written to a Song row is the row's [duration_ms]
    divided by 1000 and rounded to a nearest integer: it is within half a
    second of the quotient, 200000 ms give 200, and a value half-way
    between two integers goes to the even one. *)
Theorem duration_rounded :
  (forall ms, Z.abs (1000 * to_seconds ms - ms) <= 500)
  /\ to_seconds 200000 = 200
  /\ (forall k, to_seconds (1000 * k + 500) = if Z.even k then k else k + 1)
  /\ (forall csv disk c',
         main csv disk = (Returned tt, c') ->
         map song_duration (rows (Song (durable c')))
         = map song_duration (rows (Song disk))
           ++ map (fun r => to_seconds (csv_duration_ms r)) (filter accepts_b csv)).
Proof.
  split; [exact to_seconds_nearest|].
  split; [reflexivity|]. split; [exact to_seconds_half_way|].
  intros csv disk c' H. apply main_songs in H as (news & -> & HF).
  rewrite map_app. f_equal. eapply songs_durations. exact HF.
Qed.

(** *** Genres of a song *)

Lemma genres_of_fresh_song d : db_ok d -> genres_of_song (fresh_song_id d) d = [].
Proof.
  intros Hok. unfold genres_of_song.
  pose proof (song_genre_refs Hok) as Hrefs. rewrite Forall_forall in Hrefs.
  induction (SongGenre d) as [|p l IH]; cbn; [reflexivity|].
  destruct (Z.eqb_spec (fst p) (fresh_song_id d)) as [E|_].
  - exfalso. destruct (Hrefs p (or_introl eq_refl)) as [Hin _].
    rewrite E in Hin. exact (next_rowid_fresh _ _ Hin).
  - apply IH. intros q Hq. apply Hrefs. now right.
Qed.

Lemma filter_own_pairs sid gids :
  filter (fun p : Z * Z => fst p =? sid) (map (pair sid) gids) = map (pair sid) gids.
Proof.
  induction gids as [|g gids IH]; cbn; [reflexivity|].
  now rewrite Z.eqb_refl, IH.
Qed.

Lemma populate_row_pairs r c c' :
  inv c -> populate_row r c = (Returned tt, c') ->
  exists aid gids,
    rows (Song (cur c'))
    = rows (Song (cur c)) ++ [song_of (fresh_song_id (cur c)) r aid]
    /\ In (mkName aid (artist r)) (rows (Artist (cur c')))
    /\ SongGenre (cur c')
       = SongGenre (cur c) ++ map (pair (fresh_song_id (cur c))) gids
    /\ genres_of_song (fresh_song_id (cur c)) (cur c')
       = map (pair (fresh_song_id (cur c))) gids
    /\ Forall2 (fun gid tok => In (mkName gid tok) (rows (Genre (cur c'))))
               gids (split ", " (genre r)).
Proof.
  intros Hinv H.
  apply populate_row_returned in H as (aid & c1 & gids & _ & Ha & HA & HS & HSG & HF).
  exists aid, gids. repeat split; try assumption.
  - now rewrite HA.
  - unfold genres_of_song at 1. rewrite HSG, filter_app, filter_own_pairs.
    fold (genres_of_song (fresh_song_id (cur c)) (cur c)).
    now rewrite (genres_of_fresh_song (proj1 Hinv)).
Qed.

(** C6. Loading a row appends one Song row and, for the tokens obtained
    by splitting the genre field on [", "], one SongGenre pair per token, in
    order, each pairing the new song's id with the id of a Genre row named
    by that token; these are all the pairs of the new song.  The load of
    the row completes when no token is repeated.  A row whose genre field
    is ["pop, rock"] gets exactly two pairs, to Genre "pop" and to Genre
    "rock". *)
Theorem populate_row_links_genres (r : Row) (c : Conn) :
  inv c ->
  (forall c',
      populate_row r c = (Returned tt, c') ->
      exists aid gids,
        rows (Song (cur c'))
        = rows (Song (cur c)) ++ [song_of (fresh_song_id (cur c)) r aid]
        /\ SongGenre (cur c')
           = SongGenre (cur c) ++ map (pair (fresh_song_id (cur c))) gids
        /\ genres_of_song (fresh_song_id (cur c)) (cur c')
           = map (pair (fresh_song_id (cur c))) gids
        /\ Forall2 (fun gid tok => In (mkName gid tok) (rows (Genre (cur c'))))
                   gids (split ", " (genre r)))
  /\ (NoDup (split ", " (genre r)) ->
      exists c', populate_row r c = (Returned tt, c'))
  /\ (genre r = "pop, rock" ->
      exists c' pop rock,
        populate_row r c = (Returned tt, c')
        /\ genres_of_song (fresh_song_id (cur c)) (cur c')
           = [(fresh_song_id (cur c), pop); (fresh_song_id (cur c), rock)]
        /\ In (mkName pop "pop") (rows (Genre (cur c')))
        /\ In (mkName rock "rock") (rows (Genre (cur c')))).
Proof.
  intros Hinv. split; [|split].
  - intros c' H.
    destruct (@populate_row_pairs r c c' Hinv H) as (aid & gids & H1 & _ & H3 & H4 & H5).
    now exists aid, gids.
  - now apply populate_row_complete.
  - intros Hg.
    assert (Hs : split ", " (genre r) = ["pop"; "rock"]) by now rewrite Hg.
    destruct (@populate_row_complete r c Hinv) as (c' & E).
    { rewrite Hs. repeat constructor; simpl; intuition discriminate. }
    destruct (@populate_row_pairs r c c' Hinv E) as (aid & gids & _ & _ & _ & H4 & H5).
    rewrite Hs in H5.
    inversion H5 as [|gp ? gids1 ? Hp H5']; subst.
    inversion H5' as [|gr ? gids2 ? Hr H5'']; subst.
    inversion H5''; subst.
    exists c', gp, gr. now repeat split.
Qed.

Lemma populate_row_links_genres_witness :
  exists c' pop rock,
    populate_row example_row (connect empty_db) = (Returned tt, c')
    /\ genres_of_song 1 (cur c') = [(1, pop); (1, rock)]
    /\ In (mkName pop "pop") (rows (Genre (cur c')))
    /\ In (mkName rock "rock") (rows (Genre (cur c'))).
Proof.
  destruct (@populate_row_links_genres example_row (connect empty_db)
              (@inv_connect empty_db db_ok_empty)) as (_ & _ & H).
  exact (H eq_refl).
Defined.

Lemma populate_row_cell_str r g c :
  populate_row_cell r (Str g) c = populate_row (with_genre g r) c.
Proof.
  unfold populate_row_cell, populate_row, bind. cbn [artist with_genre].
  destruct (get_or_create_id TArtist (artist r) c) as [[aid|e] c1];
    reflexivity.
Qed.

Lemma with_genre_same r : with_genre (genre r) r = r.
Proof. now destruct r. Qed.

Lemma populate_row_cell_nan r c :
  exists aid c1,
    get_or_create_id TArtist (artist r) c = (Returned aid, c1)
    /\ populate_row_cell r NaN c
       = (Raised no_split,
          after_song (song_of (fresh_song_id (cur c1)) r aid) c1).
Proof.
  destruct (get_or_create_id_returns TArtist (artist r) c) as (aid & c1 & E & _).
  exists aid, c1. split; [exact E|].
  unfold populate_row_cell, bind. now rewrite E.
Qed.

(** C7.  An empty genre field reaches the loader as NaN, on which
    [split] raises: the row's Song row has been inserted by then, no
    SongGenre pair has, and [populate_database] stops there, the rows that
    follow unread and its closing commit not performed.  Were the cell the
    empty string, the row would load and its Song would get one SongGenre
    pair, to a Genre whose name is the empty string.  On a cell holding a
    string the loop body is the one of [populate_row]. *)
Theorem empty_genre_raises :
  (forall r c, populate_row_cell r (Str (genre r)) c = populate_row r c)
  /\ (forall r c,
         inv c ->
         exists aid c',
           populate_row_cell r NaN c = (Raised no_split, c')
           /\ rows (Song (cur c'))
              = rows (Song (cur c)) ++ [song_of (fresh_song_id (cur c)) r aid]
           /\ SongGenre (cur c') = SongGenre (cur c)
           /\ genres_of_song (fresh_song_id (cur c)) (cur c') = [])
  /\ (forall r rest c,
         exists c' l,
           populate_database_cells ((r, NaN) :: rest) c = (Raised no_split, c')
           /\ log c' = EvInsert (cur c') :: l)
  /\ (forall r c,
         inv c ->
         exists c' gid,
           populate_row_cell r (Str "") c = (Returned tt, c')
           /\ genres_of_song (fresh_song_id (cur c)) (cur c')
              = [(fresh_song_id (cur c), gid)]
           /\ In (mkName gid "") (rows (Genre (cur c')))).
Proof.
  split; [|split; [|split]].
  - intros r c. now rewrite populate_row_cell_str, with_genre_same.
  - intros r c Hinv.
    destruct (populate_row_cell_nan r c) as (aid & c1 & E & H).
    destruct (get_or_create_id_frame _ _ _ E) as (HS & HSG & _).
    assert (Hf : fresh_song_id (cur c1) = fresh_song_id (cur c))
      by (unfold fresh_song_id; now rewrite HS).
    eexists aid, _. split; [exact H|]. cbn. rewrite HS, HSG, Hf.
    split; [reflexivity|]. split; [reflexivity|].
    exact (genres_of_fresh_song (proj1 Hinv)).
  - intros r rest c.
    destruct (populate_row_cell_nan r c) as (aid & c1 & _ & H).
    eexists _, _. split.
    + unfold populate_database_cells. cbn [for_each fst snd].
      unfold bind at 1 2. rewrite H. reflexivity.
    + reflexivity.
  - intros r c Hinv.
    assert (Hs : split ", " (genre (with_genre "" r)) = [""]) by reflexivity.
    destruct (@populate_row_complete (with_genre "" r) c Hinv) as (c' & E).
    { rewrite Hs. repeat constructor. intros []. }
    destruct (@populate_row_pairs (with_genre "" r) c c' Hinv E)
      as (aid & gids & _ & _ & _ & H4 & H5).
    rewrite Hs in H5.
    inversion H5 as [|gid ? gids1 ? Hgid H5']; subst. inversion H5'; subst.
    exists c', gid. rewrite populate_row_cell_str. now repeat split.
Qed.

Lemma empty_genre_raises_witness :
  exists aid c',
    populate_row_cell example_row NaN (connect empty_db) = (Raised no_split, c')
    /\ rows (Song (cur c')) = [song_of 1 example_row aid]
    /\ SongGenre (cur c') = []
    /\ genres_of_song 1 (cur c') = [].
Proof.
  destruct empty_genre_raises as (_ & H & _).
  apply (H example_row (connect empty_db)).
  apply inv_connect, db_ok_empty.
Defined.

(** *** Artist names *)

Lemma Forall2_in_right A B (P : A -> B -> Prop) l1 l2 b :
  Forall2 P l1 l2 -> In b l2 -> exists a, In a l1 /\ P a b.
Proof.
  induction 1 as [|a b' l1 l2 Hab _ IH]; cbn; [tauto|].
  intros [<-|Hin].
  - exists a. split; [now left|assumption].
  - destruct (IH Hin) as (a' & Ha' & HP). exists a'. split; [now right|assumption].
Qed.

Lemma main_artist_stored csv disk c' r :
  main csv disk = (Returned tt, c') -> In r csv -> accepts r ->
  exists s,
    In s (rows (Song (durable c')))
    /\ song_name s = csv_song r
    /\ In (mkName (song_artist_id s) (canonicalize (csv_artist r)))
          (rows (Artist (durable c'))).
Proof.
  intros H Hin Hacc. apply main_songs in H as (news & E & HF).
  assert (Hf : In r (filter accepts_b csv))
    by (apply filter_In; split; [assumption|now apply accepts_b_iff]).
  destruct (@Forall2_in_right _ _ _ _ _ _ HF Hf) as (s & Hs & i & aid & -> & Ha).
  exists (song_of i (preprocess_row r) aid). repeat split; [|assumption].
  rewrite E. apply in_or_app. now right.
Qed.

Lemma main_artists_origin csv disk c' a :
  main csv disk = (Returned tt, c') ->
  In a (rows (Artist (durable c'))) ->
  In a (rows (Artist disk))
  \/ exists r, In r csv /\ accepts r /\ row_name a = canonicalize (csv_artist r).
Proof.
  intros H Ha. apply main_returned in H as (c1 & E & ->). cbn [durable] in Ha.
  destruct (@artists_after_rows _ _ _ E a Ha) as [Hold|(r' & Hr' & Hn)].
  - now left.
  - right. rewrite load_and_preprocess_data_eq in Hr'.
    apply in_map_iff in Hr' as (r & <- & Hin). apply filter_In in Hin as [Hin Hb].
    exists r. split; [assumption|]. split; [now apply accepts_b_iff|exact Hn].
Qed.

Lemma main_keeps_artists csv disk c' a :
  main csv disk = (Returned tt, c') ->
  In a (rows (Artist disk)) -> In a (rows (Artist (durable c'))).
Proof.
  intros H Ha. apply main_returned in H as (c1 & E & ->). cbn [durable].
  apply (@steps_keeps_row TArtist a _ _ (@steps_rows _ _ _ _ E)). exact Ha.
Qed.

(** C8. The artist name is put in canonical form (lower-cased, then every
    space turned into an underscore) by [load_and_preprocess_data];
    [get_or_create_id] stores and looks up the key it is given, unchanged.
    After a completed run the Artist names are those the store already had
    and the canonical forms of the artists of the kept CSV rows.  Where
    [lower] takes "Foo Bar" to "foo bar", as [str.lower] does, the canonical
    form of "Foo Bar" is "foo_bar" and a kept row of that artist is stored
    under "foo_bar"; on any name that [lower] treats as ASCII lower-casing
    does, the canonical form is obtained one character at a time. *)
Theorem artist_names_canonical :
  (forall s, canonicalize s = map_string space_to_underscore (lower s))
  /\ (forall s, lower s = ascii_lower s -> canonicalize s = map_string canon_char s)
  /\ (lower "Foo Bar" = "foo bar" -> canonicalize "Foo Bar" = "foo_bar")
  /\ (forall t v c,
         exists i c',
           get_or_create_id t v c = (Returned i, c')
           /\ In (mkName i v) (rows (get_table t (cur c'))))
  /\ rows (Artist (cur (snd (get_or_create_id TArtist "Foo Bar" (connect empty_db)))))
     = [mkName 1 "Foo Bar"]
  /\ (forall csv disk c',
         main csv disk = (Returned tt, c') ->
         forall n,
           In n (map row_name (rows (Artist (durable c'))))
           <-> (In n (map row_name (rows (Artist disk)))
                \/ exists r, In r csv /\ accepts r
                             /\ n = canonicalize (csv_artist r)))
  /\ (forall csv disk c' r,
         lower "Foo Bar" = "foo bar" ->
         main csv disk = (Returned tt, c') ->
         In r csv -> accepts r -> csv_artist r = "Foo Bar" ->
         In "foo_bar" (map row_name (rows (Artist (durable c'))))).
Proof.
  assert (Hfoo : lower "Foo Bar" = "foo bar" -> canonicalize "Foo Bar" = "foo_bar").
  { intros E. unfold canonicalize. now rewrite E. }
  split; [exact canonicalize_spaces|]. split; [exact canonicalize_ascii|].
  split; [exact Hfoo|].
  split; [exact get_or_create_id_returns|]. split; [reflexivity|].
  split.
  - intros csv disk c' H n. split.
    + intros Hn. apply in_map_iff in Hn as (a & <- & Ha).
      destruct (@main_artists_origin _ _ _ _ H Ha) as [Hold|(r & Hin & Hacc & Hr)].
      * left. now apply in_map.
      * right. now exists r.
    + intros [Hn|(r & Hin & Hacc & ->)].
      * apply in_map_iff in Hn as (a & <- & Ha). apply in_map.
        eapply main_keeps_artists; eassumption.
      * destruct (@main_artist_stored _ _ _ _ H Hin Hacc) as (s & _ & _ & Ha).
        apply (in_map row_name) in Ha. exact Ha.
  - intros csv disk c' r E H Hin Hacc Hr.
    destruct (@main_artist_stored _ _ _ _ H Hin Hacc) as (s & _ & _ & Ha).
    apply (in_map row_name) in Ha. cbn [row_name] in Ha.
    now rewrite Hr, (Hfoo E) in Ha.
Qed.

(** *** The artist lookup of the report script *)

Lemma find_has_name_known k i l :
  NoDup (map row_name l) -> In (mkName i k) l ->
  find (has_name k) l = Some (mkName i k).
Proof.
  intros Hnd Hin. destruct (find (has_name k) l) as [r|] eqn:F.
  - destruct (find_has_name_some _ _ F) as [Hr Hn]. f_equal.
    apply (@NoDup_map_injective _ _ row_name l); auto.
  - apply find_has_name_none in F. exfalso. apply F.
    apply (in_map row_name) in Hin. exact Hin.
Qed.

Lemma get_artist_id_missing typed w :
  ~ In (canonicalize typed) (map row_name (rows (Artist (cur (Artist.conn w))))) ->
  Artist.get_artist_id typed w
  = (None,
     Artist.print ("Artist '" ++ canonicalize typed
                   ++ "' not found in the database.")%string w).
Proof.
  intros H. apply find_has_name_none in H.
  unfold Artist.get_artist_id, Artist.select_artist_id.
  fold (canonicalize typed). fold (has_name (canonicalize typed)).
  now rewrite H.
Qed.

(** C9. When the name typed is not the name of a stored artist (after
    canonicalisation), [get_artist_id] prints that the artist was not found
    and returns [None]; [display_artist_vs_genre_popularity] then returns
    having shown no table and no chart and with the connection as it was;
    the script goes on to close the connection and print its closing line. *)
Theorem artist_not_found (typed : string) (w : Artist.World) :
  ~ In (canonicalize typed) (map row_name (rows (Artist (cur (Artist.conn w))))) ->
  Artist.get_artist_id typed w
  = (None,
     Artist.print ("Artist '" ++ canonicalize typed
                   ++ "' not found in the database.")%string w)
  /\ Artist.display_artist_vs_genre_popularity typed w
     = Artist.mkWorld (Artist.conn w)
         (Artist.stdout w
          ++ [Artist.Print ("Artist '" ++ canonicalize typed
                            ++ "' not found in the database.")%string])
  /\ (Artist.conn w = connect (cur (Artist.conn w)) -> Artist.stdout w = [] ->
      Artist.script typed (cur (Artist.conn w))
      = Artist.mkWorld (Artist.conn w)
          [Artist.Prompt "Please enter the artist's name: ";
           Artist.Print ("Artist '" ++ canonicalize typed
                         ++ "' not found in the database.")%string;
           Artist.Print "Program completed successfully!"]).
Proof.
  intros H. pose proof (get_artist_id_missing typed w H) as E.
  split; [exact E|]. split.
  - unfold Artist.display_artist_vs_genre_popularity. now rewrite E.
  - intros Hc Hout. unfold Artist.script, Artist.display_artist_vs_genre_popularity.
    rewrite get_artist_id_missing by exact H.
    cbn. now rewrite Hc.
Qed.

(** C10. [get_artist_id] canonicalises the name it is given, as the
    loader does, before it searches, so it gives the same answer (and
    prints the same) on any two names with the same canonical form, and on
    a name and its canonical form when lower-casing leaves the canonical
    form as it is (as [str.lower] leaves every lower-cased string).  After a
    completed load, any such variant of the artist name of a kept CSV row
    resolves to the id of the one Artist row with that canonical name, which
    is the artist of the Song row loaded for it. *)
Theorem get_artist_id_canonical :
  (forall s w,
      lower (canonicalize s) = canonicalize s ->
      Artist.get_artist_id (canonicalize s) w = Artist.get_artist_id s w)
  /\ (forall s s' w,
         canonicalize s = canonicalize s' ->
         Artist.get_artist_id s w = Artist.get_artist_id s' w)
  /\ (forall csv disk c' r s out,
         db_ok disk -> main csv disk = (Returned tt, c') ->
         In r csv -> accepts r ->
         canonicalize s = canonicalize (csv_artist r) ->
         exists i sg,
           Artist.get_artist_id s (Artist.mkWorld (connect (durable c')) out)
           = (Some i, Artist.mkWorld (connect (durable c')) out)
           /\ In (mkName i (canonicalize (csv_artist r))) (rows (Artist (durable c')))
           /\ (forall j, In (mkName j (canonicalize (csv_artist r)))
                            (rows (Artist (durable c'))) -> j = i)
           /\ In sg (rows (Song (durable c')))
           /\ song_name sg = csv_song r
           /\ song_artist_id sg = i).
Proof.
  assert (Hsame : forall s s' w,
             canonicalize s = canonicalize s' ->
             Artist.get_artist_id s w = Artist.get_artist_id s' w).
  { intros s s' w E. unfold Artist.get_artist_id.
    fold (canonicalize s). fold (canonicalize s'). now rewrite E. }
  split; [|split; [exact Hsame|]].
  - intros s w E. apply Hsame. now apply canonicalize_idempotent.
  - intros csv disk c' r s out Hok H Hin Hacc Hs.
    pose proof (main_inv csv Hok) as Hinv. rewrite H in Hinv. cbn [snd] in Hinv.
    destruct Hinv as (_ & Hd & _).
    destruct (@main_artist_stored _ _ _ _ H Hin Hacc) as (sg & Hsg & Hname & Ha).
    exists (song_artist_id sg), sg.
    pose proof (artist_names_unique Hd) as Hnd.
    repeat split; try assumption.
    + unfold Artist.get_artist_id, Artist.select_artist_id.
      fold (canonicalize s). rewrite Hs.
      fold (has_name (canonicalize (csv_artist r))). cbn [Artist.conn connect cur].
      now rewrite (@find_has_name_known _ _ _ Hnd Ha).
    + intros j Hj.
      assert (Heq : mkName j (canonicalize (csv_artist r))
                    = mkName (song_artist_id sg) (canonicalize (csv_artist r))).
      { apply (@NoDup_map_injective _ _ row_name (rows (Artist (durable c')))); auto. }
      now inversion Heq.
Qed.

(* ================================================================= *)
(** ** Further properties of the code *)

Unset Implicit Arguments.

(** *** Splitting the genre field *)

Lemma string_app_assoc (a b c : string) :
  ((a ++ b) ++ c)%string = (a ++ (b ++ c))%string.
Proof. induction a as [|x a IH]; cbn; [reflexivity|now rewrite IH]. Qed.

Lemma string_app_empty_r (a : string) : (a ++ "")%string = a.
Proof. induction a as [|x a IH]; cbn; [reflexivity|now rewrite IH]. Qed.

Lemma string_length_app (a b : string) :
  String.length (a ++ b) = (String.length a + String.length b)%nat.
Proof. induction a as [|x a IH]; cbn; [reflexivity|now rewrite IH]. Qed.

Lemma prefix_app sep s :
  prefix sep s = true -> exists rest, s = (sep ++ rest)%string.
Proof.
  revert s. induction sep as [|a sep IH]; intros s H.
  - now exists s.
  - destruct s as [|b s]; cbn [prefix] in H; [discriminate|].
    destruct (ascii_dec a b) as [<-|_]; [|discriminate].
    destruct (IH _ H) as (rest & ->). now exists rest.
Qed.

(** Stepping over the rest of a separator. *)
Lemma split_from_skip sep tok pre rest :
  split_from sep (String.length pre) tok (pre ++ rest)
  = split_from sep 0 tok rest.
Proof.
  induction pre as [|a pre IH]; cbn [String.length append]; [reflexivity|].
  cbn [split_from]. exact IH.
Qed.

Lemma join_cons sep x l :
  l <> [] -> join sep (x :: l) = (x ++ sep ++ join sep l)%string.
Proof. destruct l; [contradiction|reflexivity]. Qed.

Lemma join_split_from sep n :
  sep <> EmptyString ->
  forall s tok,
    (String.length s <= n)%nat ->
    join sep (split_from sep 0 tok s) = (tok ++ s)%string.
Proof.
  intros Hsep. induction n as [|n IH]; intros s tok Hlen.
  - destruct s; [|cbn in Hlen; lia]. cbn. now rewrite string_app_empty_r.
  - destruct s as [|c s]; [cbn; now rewrite string_app_empty_r|].
    cbn [split_from].
    destruct (prefix sep (String c s)) eqn:P.
    + apply prefix_app in P as (rest & E).
      destruct sep as [|a sep']; [contradiction|].
      cbn [append] in E. inversion E; subst c s; clear E.
      cbn [String.length]. rewrite Nat.sub_succ, Nat.sub_0_r.
      rewrite split_from_skip.
      rewrite join_cons by apply split_from_nonempty.
      rewrite IH.
      * reflexivity.
      * cbn in Hlen. rewrite string_length_app in Hlen. lia.
    + rewrite IH by (cbn in Hlen; lia).
      now rewrite string_app_assoc.
Qed.

(** X1. Splitting on a separator loses nothing: the tokens, joined again
    with the separator, are the string that was split; in particular the
    genre tokens of a row joined with [", "] are its genre field. *)
Theorem join_split (sep s : string) :
  sep <> EmptyString -> join sep (split sep s) = s.
Proof.
  intros Hsep. unfold split.
  now rewrite (@join_split_from sep (String.length s) Hsep s "" (le_n _)).
Qed.

Lemma join_split_witness : join ", " (split ", " "pop, rock") = "pop, rock".
Proof. apply (@join_split ", " "pop, rock"). discriminate. Defined.

(** *** Canonical artist names *)

Lemma canon_char_shape c :
  canon_char c <> " "%char /\ ascii_lower_char (canon_char c) = canon_char c.
Proof.
  destruct c as [[] [] [] [] [] [] [] []]; split; (discriminate || reflexivity).
Qed.

(** X2. The canonical form of an artist name is its lower-cased form with
    every space turned into an underscore, one character at a time: it has
    the length of the lower-cased name, contains no space, and replacing
    spaces in it again changes nothing.  For a name that [lower] treats as
    ASCII lower-casing does (as [str.lower] treats every name of ASCII
    characters), the canonical form is obtained from the name itself one
    character at a time, has as many characters as the name, and is
    unchanged by ASCII lower-casing. *)
Theorem canonicalize_shape (s : string) :
  canonicalize s = map_string space_to_underscore (lower s)
  /\ String.length (canonicalize s) = String.length (lower s)
  /\ (forall c, In c (list_ascii_of_string (canonicalize s)) -> c <> " "%char)
  /\ replace " " "_" (canonicalize s) = canonicalize s
  /\ (lower s = ascii_lower s ->
      canonicalize s = map_string canon_char s
      /\ String.length (canonicalize s) = String.length s
      /\ ascii_lower (canonicalize s) = canonicalize s).
Proof.
  split; [apply canonicalize_spaces|].
  split; [rewrite canonicalize_spaces; apply map_string_length|].
  split; [|split; [apply replace_canonicalize|]].
  - intros c Hc. rewrite canonicalize_spaces in Hc.
    apply in_map_string in Hc as (c0 & _ & ->).
    apply space_to_underscore_no_space.
  - intros E. rewrite (canonicalize_ascii s E).
    split; [reflexivity|]. split; [apply map_string_length|].
    rewrite ascii_lower_map_string, map_string_compose.
    clear E. induction s as [|a s IH]; cbn; [reflexivity|].
    now rewrite (proj2 (canon_char_shape a)), IH.
Qed.

(** *** Seconds *)

Lemma to_seconds_whole k : to_seconds (1000 * k) = k.
Proof.
  rewrite to_seconds_div_mod. cbv zeta.
  replace (1000 * k / 1000) with k by (apply Z.div_unique with (r := 0); lia).
  replace ((1000 * k) mod 1000) with 0 by (apply Z.mod_unique with (q := k); lia).
  reflexivity.
Qed.

(** X3. The conversion to seconds is exact on whole seconds and never
    reverses the order of two durations. *)
Theorem to_seconds_monotone :
  (forall k, to_seconds (1000 * k) = k)
  /\ (forall ms1 ms2, ms1 <= ms2 -> to_seconds ms1 <= to_seconds ms2).
Proof.
  split; [exact to_seconds_whole|].
  intros ms1 ms2 Hle. rewrite !to_seconds_div_mod. cbv zeta.
  pose proof (Z.div_mod ms1 1000 ltac:(lia)) as D1.
  pose proof (Z.mod_pos_bound ms1 1000 ltac:(lia)) as B1.
  pose proof (Z.div_mod ms2 1000 ltac:(lia)) as D2.
  pose proof (Z.mod_pos_bound ms2 1000 ltac:(lia)) as B2.
  destruct (Z.eq_dec (ms1 / 1000) (ms2 / 1000)) as [E|Hne].
  - rewrite <- E in *.
    destruct (Z.ltb_spec (ms1 mod 1000) 500), (Z.ltb_spec (ms2 mod 1000) 500),
      (Z.ltb_spec 500 (ms1 mod 1000)), (Z.ltb_spec 500 (ms2 mod 1000)),
      (Z.even (ms1 / 1000)); lia.
  - assert (ms1 / 1000 < ms2 / 1000) by lia.
    destruct (Z.ltb_spec (ms1 mod 1000) 500), (Z.ltb_spec (ms2 mod 1000) 500),
      (Z.ltb_spec 500 (ms1 mod 1000)), (Z.ltb_spec 500 (ms2 mod 1000)),
      (Z.even (ms1 / 1000)), (Z.even (ms2 / 1000)); lia.
Qed.

Lemma to_seconds_monotone_witness : to_seconds 200499 <= to_seconds 200500.
Proof. apply (proj2 to_seconds_monotone 200499 200500). lia. Defined.

(** *** Row identifiers of the songs *)

Lemma max_id_le ids b : 0 <= b -> (forall x, In x ids -> x <= b) -> max_id ids <= b.
Proof.
  intros Hb. induction ids as [|y ids IH]; cbn; intros H; [assumption|].
  apply Z.max_lub; [apply H; now left|apply IH; intros x Hx; apply H; now right].
Qed.

Lemma next_rowid_consecutive ids sq :
  consecutive ids sq -> next_rowid ids sq = Z.of_nat (S (List.length ids)).
Proof.
  intros [Hids ->]. unfold next_rowid.
  assert (Hle : max_id ids <= Z.of_nat (List.length ids)).
  { apply max_id_le; [lia|]. intros x Hx. rewrite Hids in Hx.
    apply in_map_iff in Hx as (n & <- & Hn). apply in_seq in Hn. lia. }
  lia.
Qed.

Lemma consecutive_snoc ids sq :
  consecutive ids sq ->
  consecutive (ids ++ [next_rowid ids sq]) (next_rowid ids sq).
Proof.
  intros H. rewrite (next_rowid_consecutive ids sq H). destruct H as [Hids _].
  unfold consecutive. rewrite length_app. cbn [List.length].
  rewrite Nat.add_1_r. split; [|reflexivity].
  rewrite seq_S, map_app. cbn. now rewrite <- Hids.
Qed.

Lemma populate_row_song_table r c c' :
  populate_row r c = (Returned tt, c') ->
  exists aid,
    Song (cur c')
    = mkTable (rows (Song (cur c)) ++ [song_of (fresh_song_id (cur c)) r aid])
              (fresh_song_id (cur c)).
Proof.
  intros H. apply bind_returned in H as (aid & c1 & E & H).
  apply bind_returned in H as (sid & c2 & E2 & H).
  rewrite insert_song_eq in E2. inversion E2; subst sid c2; clear E2.
  destruct (@get_or_create_id_frame _ _ _ _ _ E) as (HS & _).
  apply link_genres_returned in H as (gids & _ & _ & H3 & _).
  exists aid. rewrite H3. cbn. unfold fresh_song_id. now rewrite HS.
Qed.

Lemma rows_song_ids data :
  forall c c',
    for_each data populate_row c = (Returned tt, c') ->
    consecutive (map song_id (rows (Song (cur c)))) (seq (Song (cur c))) ->
    consecutive (map song_id (rows (Song (cur c')))) (seq (Song (cur c')))
    /\ List.length (rows (Song (cur c')))
       = (List.length (rows (Song (cur c))) + List.length data)%nat.
Proof.
  induction data as [|r data IH]; intros c c' H Hc; cbn [for_each] in H.
  - inversion H; subst. split; [assumption|cbn; lia].
  - apply bind_returned in H as ([] & c1 & E & E').
    apply populate_row_song_table in E as (aid & E).
    destruct (IH c1 c' E') as [H1 H2].
    + rewrite E. cbn. rewrite map_app. cbn. now apply consecutive_snoc.
    + split; [assumption|]. rewrite H2, E. cbn. rewrite length_app. cbn. lia.
Qed.

(** X4. Song rowids follow the order of the input: when the Song table
    holds rowids 1..n with its AUTOINCREMENT counter at n (a fresh store, or
    one only ever filled by the loader), a completed run leaves rowids
    1..n+m, m being the number of CSV rows kept, in that order. *)
Theorem song_ids_consecutive (csv : list CsvRow) (disk : DB) (c' : Conn) :
  consecutive (map song_id (rows (Song disk))) (seq (Song disk)) ->
  main csv disk = (Returned tt, c') ->
  map song_id (rows (Song (durable c')))
  = map Z.of_nat
        (List.seq 1 (List.length (rows (Song disk))
                     + List.length (filter accepts_b csv)))
  /\ consecutive (map song_id (rows (Song (durable c'))))
                 (seq (Song (durable c'))).
Proof.
  intros Hc H. apply main_returned in H as (c1 & E & ->). cbn [durable].
  destruct (rows_song_ids _ _ _ E Hc) as [H1 H2].
  split; [|assumption]. destruct H1 as [H1 _]. rewrite H1, length_map, H2.
  cbn [cur]. now rewrite load_and_preprocess_data_eq, length_map.
Qed.

(** *** Identifiers and keys *)

Lemma inv_ids_unique t c :
  inv c -> NoDup (map row_id (rows (get_table t (cur c)))).
Proof.
  intros [H _]. destruct t; [apply (artist_ids_unique H)|apply (genre_ids_unique H)].
Qed.

Lemma get_or_create_id_inv t v c o c' :
  inv c -> get_or_create_id t v c = (o, c') -> inv c'.
Proof.
  intros Hinv H.
  pose proof (@triple_get_or_create_id t v _ stable_true c (conj Hinv I)) as T.
  rewrite H in T. destruct o; apply T.
Qed.

Lemma rows_inv data c o c' :
  inv c -> for_each data populate_row c = (o, c') -> inv c'.
Proof.
  intros Hinv H.
  pose proof (@triple_rows data _ stable_true c (conj Hinv I)) as T.
  rewrite H in T. destruct o; apply T.
Qed.

Lemma get_or_create_id_row t v c i c' :
  get_or_create_id t v c = (Returned i, c') ->
  In (mkName i v) (rows (get_table t (cur c'))).
Proof.
  intros H. destruct (get_or_create_id_returns t v c) as (i0 & c0 & E & Hin).
  rewrite H in E. now inversion E; subst.
Qed.

(** X5. Within a run, [get_or_create_id] never gives two different keys of
    a table the same identifier: if a later call, after any further rows
    were loaded, returns the identifier of an earlier call, the keys are
    equal. *)
Theorem get_or_create_id_injective
        (t : table_name) (k1 k2 : string) (i : Z) (data : list Row)
        (c c1 c2 c3 : Conn) (o : outcome unit) :
  inv c ->
  get_or_create_id t k1 c = (Returned i, c1) ->
  for_each data populate_row c1 = (o, c2) ->
  get_or_create_id t k2 c2 = (Returned i, c3) ->
  k1 = k2.
Proof.
  intros Hinv E1 Erun E2.
  pose proof (get_or_create_id_inv _ _ _ _ _ Hinv E1) as Hinv1.
  pose proof (rows_inv _ _ _ _ Hinv1 Erun) as Hinv2.
  pose proof (get_or_create_id_inv _ _ _ _ _ Hinv2 E2) as Hinv3.
  pose proof (get_or_create_id_row _ _ _ _ _ E1) as Hin1.
  pose proof (get_or_create_id_row _ _ _ _ _ E2) as Hin2.
  assert (Hin1' : In (mkName i k1) (rows (get_table t (cur c3)))).
  { apply (@steps_keeps_row t _ c2 c3 (@steps_get_or_create_id _ _ _ _ _ E2)).
    apply (@steps_keeps_row t _ c1 c2 (@steps_rows _ _ _ _ Erun)). exact Hin1. }
  assert (Heq : mkName i k1 = mkName i k2).
  { apply (@NoDup_map_injective _ _ row_id (rows (get_table t (cur c3))));
      [now apply inv_ids_unique|assumption|assumption|reflexivity]. }
  now inversion Heq.
Qed.

Lemma get_or_create_id_injective_witness : "pop" = "pop".
Proof.
  apply (get_or_create_id_injective TGenre "pop" "pop" 1 []
           (connect empty_db)
           (snd (get_or_create_id TGenre "pop" (connect empty_db)))
           (snd (get_or_create_id TGenre "pop" (connect empty_db)))
           (snd (get_or_create_id TGenre "pop" (connect empty_db)))
           (Returned tt)).
  - apply inv_connect, db_ok_empty.
  - reflexivity.
  - reflexivity.
  - reflexivity.
Defined.

(** *** A repeated genre token *)

Lemma NoDup_string_dec (l : list string) : NoDup l \/ ~ NoDup l.
Proof.
  induction l as [|x l [IH|IH]].
  - left. constructor.
  - destruct (in_dec string_dec x l) as [Hin|Hnin].
    + right. intros H. inversion H; contradiction.
    + left. now constructor.
  - right. intros H. inversion H; contradiction.
Qed.

Lemma link_genre_inv sid g c o c' :
  inv c -> In sid (map song_id (rows (Song (cur c)))) ->
  link_genre sid g c = (o, c') ->
  inv c' /\ (o = Returned tt -> In sid (map song_id (rows (Song (cur c'))))).
Proof.
  intros Hinv Hs H.
  pose proof (@triple_link_genre sid g _ stable_true c (conj Hinv (conj I Hs))) as T.
  rewrite H in T. destruct o as [[]|e].
  - split; [apply T|intros _; apply T].
  - split; [apply T|discriminate].
Qed.

Lemma link_genres_raise sid :
  forall toks done c,
    inv c ->
    In sid (map song_id (rows (Song (cur c)))) ->
    (forall tok, In tok done ->
                 exists gid, In (mkName gid tok) (rows (Genre (cur c)))
                             /\ In (sid, gid) (SongGenre (cur c))) ->
    (~ NoDup toks \/ exists tok, In tok toks /\ In tok done) ->
    exists c',
      for_each toks (link_genre sid) c
      = (Raised (IntegrityError "PRIMARY KEY"), c').
Proof.
  induction toks as [|tok toks IH]; intros done c Hinv Hs Hdone Hbad.
  - exfalso. destruct Hbad as [H|(t & [] & _)]. apply H. constructor.
  - destruct (get_or_create_id_returns TGenre tok c) as (gid & c0 & E & Hin).
    cbn [get_table] in Hin.
    pose proof (get_or_create_id_inv _ _ _ _ _ Hinv E) as Hinv0.
    destruct (@get_or_create_id_frame _ _ _ _ _ E) as (HS & HSG & HG & _).
    cbn [for_each]. unfold bind at 1.
    destruct (insert_song_genre_cases sid gid c0) as [[Hdup Ei]|[Hnew Ei]].
    + exists c0. unfold link_genre, bind. now rewrite E, Ei.
    + assert (El : link_genre sid tok c = (Returned tt, after_pair (sid, gid) c0))
        by (unfold link_genre, bind; now rewrite E, Ei).
      rewrite El.
      destruct (link_genre_inv _ _ _ _ _ Hinv Hs El) as [Hinv1 Hs1].
      apply (IH (tok :: done)); [assumption|now apply Hs1| |].
      * intros t [<-|Ht].
        -- exists gid. split; [exact Hin|]. cbn. apply in_or_app. right. now left.
        -- destruct (Hdone t Ht) as (g & Hg1 & Hg2). exists g. split.
           ++ cbn. now apply HG.
           ++ cbn. apply in_or_app. left. now rewrite HSG.
      * assert (Hfresh : ~ In tok done).
        { intros Ht. destruct (Hdone tok Ht) as (g & Hg1 & Hg2). apply Hnew.
          apply HG in Hg1.
          assert (Heq : mkName g tok = mkName gid tok).
          { apply (@NoDup_map_injective _ _ row_name (rows (Genre (cur c0))));
              [apply (inv_names_unique TGenre Hinv0)|assumption|assumption
              |reflexivity]. }
          inversion Heq; subst g. now rewrite HSG. }
        destruct Hbad as [Hnd|(t & [<-|Ht] & Htd)].
        -- destruct (in_dec string_dec tok toks) as [Hin'|Hnin].
           ++ right. exists tok. split; [assumption|now left].
           ++ left. intros H. apply Hnd. now constructor.
        -- contradiction.
        -- right. exists t. split; [assumption|now right].
Qed.

Lemma populate_row_raises r c :
  inv c -> ~ NoDup (split ", " (genre r)) ->
  exists c', populate_row r c = (Raised (IntegrityError "PRIMARY KEY"), c').
Proof.
  intros Hinv Hnd.
  destruct (get_or_create_id_returns TArtist (artist r) c) as (aid & c1 & E & Hin).
  pose proof (@triple_get_or_create_id TArtist (artist r) _ stable_true c
                (conj Hinv I)) as T.
  rewrite E in T. destruct T as (Hinv1 & _ & Ha).
  unfold populate_row, bind. rewrite E, insert_song_eq.
  apply link_genres_raise with (done := []).
  - now apply inv_after_song.
  - cbn. rewrite map_app. apply in_or_app. right. now left.
  - intros tok [].
  - now left.
Qed.

Lemma rows_raise data :
  forall c,
    inv c -> ~ Forall (fun r => NoDup (split ", " (genre r))) data ->
    exists c',
      for_each data populate_row c = (Raised (IntegrityError "PRIMARY KEY"), c').
Proof.
  induction data as [|r data IH]; intros c Hinv Hbad.
  - exfalso. apply Hbad. constructor.
  - cbn [for_each]. unfold bind at 1.
    destruct (NoDup_string_dec (split ", " (genre r))) as [Hr|Hr].
    + destruct (@populate_row_complete r c Hinv Hr) as (c1 & E). rewrite E.
      apply IH.
      * exact (rows_inv [r] c (Returned tt) c1 Hinv
                 ltac:(cbn [for_each]; unfold bind; now rewrite E)).
      * intros H. apply Hbad. now constructor.
    + destruct (populate_row_raises r c Hinv Hr) as (c1 & E). rewrite E.
      now exists c1.
Qed.

(** X6. From a well-formed store a run of the loader completes exactly
    when no row repeats a genre token; a row that repeats one makes the
    INSERT into SongGenre violate the primary key, and the IntegrityError
    leaves [populate_database] before its final commit. *)
Theorem load_completes_iff_no_repeat (data : list Row) (c : Conn) :
  inv c ->
  (Forall (fun r => NoDup (tokens r)) data
   <-> exists c', populate_database data c = (Returned tt, c'))
  /\ (~ Forall (fun r => NoDup (tokens r)) data
      <-> exists c',
            populate_database data c
            = (Raised (IntegrityError "PRIMARY KEY"), c')).
Proof.
  intros Hinv. unfold tokens.
  assert (Hraise : ~ Forall (fun r => NoDup (split ", " (genre r))) data ->
                   exists c', populate_database data c
                              = (Raised (IntegrityError "PRIMARY KEY"), c')).
  { intros Hbad. destruct (rows_raise data c Hinv Hbad) as (c' & E).
    exists c'. unfold populate_database, bind. now rewrite E. }
  split; split.
  - now apply populate_database_complete.
  - intros (c' & E).
    assert (Hdec : forall l : list Row,
               Forall (fun r => NoDup (split ", " (genre r))) l
               \/ ~ Forall (fun r => NoDup (split ", " (genre r))) l).
    { induction l as [|r l [IH|IH]].
      - left. constructor.
      - destruct (NoDup_string_dec (split ", " (genre r))) as [Hr|Hr].
        + left. now constructor.
        + right. intros H. inversion H; contradiction.
      - right. intros H. inversion H; contradiction. }
    destruct (Hdec data) as [H|H]; [assumption|].
    destruct (Hraise H) as (c'' & E'). rewrite E in E'. discriminate.
  - exact Hraise.
  - intros (c' & E) Hall.
    destruct (@populate_database_complete data c Hinv Hall) as (c'' & E').
    rewrite E in E'. discriminate.
Qed.

Lemma load_completes_iff_no_repeat_witness :
  exists c',
    populate_database
      [mkRow "X" "foo_bar" "pop, pop" 200 false 2005 70 (1 # 2) (1 # 2)]
      (connect empty_db)
    = (Raised (IntegrityError "PRIMARY KEY"), c').
Proof.
  apply (load_completes_iff_no_repeat
           [mkRow "X" "foo_bar" "pop, pop" 200 false 2005 70 (1 # 2) (1 # 2)]
           (connect empty_db) (@inv_connect empty_db db_ok_empty)).
  intros H. inversion H as [|? ? Hr _]; subst. vm_compute in Hr.
  inversion Hr as [|? ? Hnin _]; subst. apply Hnin. now left.
Defined.

(** *** Genres after a run *)

Lemma link_genres_origin sid toks :
  forall c c',
    for_each toks (link_genre sid) c = (Returned tt, c') ->
    forall g, In g (rows (Genre (cur c'))) ->
              In g (rows (Genre (cur c))) \/ In (row_name g) toks.
Proof.
  induction toks as [|tok toks IH]; intros c c' H g Hg; cbn [for_each] in H.
  - inversion H; subst. now left.
  - apply bind_returned in H as ([] & c1 & E & E').
    apply link_genre_returned in E as (gid & c0 & Eg & _ & _ & ->).
    destruct (IH _ _ E' g Hg) as [Hin|Hin]; [|right; now right].
    cbn in Hin.
    destruct (get_or_create_id_cases TGenre tok c) as [(x & _ & _ & E0)|(_ & E0)];
      rewrite E0 in Eg; inversion Eg; subst; clear Eg.
    + now left.
    + cbn in Hin. apply in_app_or in Hin as [Hin|[<-|[]]]; [now left|].
      right. now left.
Qed.

Lemma populate_row_genres r c c' :
  populate_row r c = (Returned tt, c') ->
  (forall tok, In tok (tokens r) ->
               In tok (map row_name (rows (Genre (cur c')))))
  /\ (forall g, In g (rows (Genre (cur c'))) ->
                In g (rows (Genre (cur c))) \/ In (row_name g) (tokens r))
  /\ List.length (SongGenre (cur c'))
     = (List.length (SongGenre (cur c)) + List.length (tokens r))%nat.
Proof.
  intros H. split; [|split].
  - apply populate_row_returned in H as (aid & c1 & gids & _ & _ & _ & _ & _ & HF).
    intros tok Htok.
    destruct (@Forall2_in_right _ _ _ _ _ _ HF Htok) as (gid & _ & Hin).
    apply (in_map row_name) in Hin. exact Hin.
  - apply bind_returned in H as (aid & c1 & E & H).
    apply bind_returned in H as (sid & c2 & E2 & H).
    rewrite insert_song_eq in E2. inversion E2; subst sid c2; clear E2.
    destruct (@get_or_create_id_frame _ _ _ _ _ E) as (_ & _ & _ & _ & _ & HG).
    intros g Hg.
    destruct (link_genres_origin _ _ _ _ H g Hg) as [Hin|Hin]; [|now right].
    left. cbn in Hin. now rewrite (HG eq_refl) in Hin.
  - apply populate_row_returned in H as (aid & c1 & gids & _ & _ & _ & _ & HSG & HF).
    rewrite HSG, length_app, length_map. unfold tokens.
    now rewrite (Forall2_length HF).
Qed.

Lemma rows_genres data :
  forall c c',
    for_each data populate_row c = (Returned tt, c') ->
    (forall r tok, In r data -> In tok (tokens r) ->
                   In tok (map row_name (rows (Genre (cur c')))))
    /\ (forall g, In g (rows (Genre (cur c'))) ->
                  In g (rows (Genre (cur c)))
                  \/ exists r, In r data /\ In (row_name g) (tokens r))
    /\ List.length (SongGenre (cur c'))
       = (List.length (SongGenre (cur c)) + List.length (flat_map tokens data))%nat.
Proof.
  induction data as [|r data IH]; intros c c' H; cbn [for_each] in H.
  - inversion H; subst. split; [intros r tok []|]. split; [now left|cbn; lia].
  - apply bind_returned in H as ([] & c1 & E & E').
    destruct (populate_row_genres _ _ _ E) as (R1 & R2 & R3).
    destruct (IH _ _ E') as (H1 & H2 & H3). split; [|split].
    + intros r' tok [<-|Hr'] Htok; [|now apply (H1 r')].
      specialize (R1 tok Htok). apply in_map_iff in R1 as (g & <- & Hg).
      apply in_map.
      apply (@steps_keeps_row TGenre g c1 c' (@steps_rows _ _ _ _ E')). exact Hg.
    + intros g Hg. destruct (H2 g Hg) as [Hin|(r' & Hr' & Hn)].
      * destruct (R2 g Hin) as [Hold|Hnew]; [now left|].
        right. exists r. split; [now left|assumption].
      * right. exists r'. split; [now right|assumption].
    + rewrite H3, R3. cbn [flat_map]. rewrite length_app. lia.
Qed.

(** X7. After a completed run the Genre names are those the store had
    and the genre tokens of the loaded rows, nothing else, and SongGenre has
    grown by one pair per token of every row. *)
Theorem genres_after_load (data : list Row) (c c' : Conn) :
  populate_database data c = (Returned tt, c') ->
  (forall n,
      In n (map row_name (rows (Genre (cur c'))))
      <-> In n (map row_name (rows (Genre (cur c))))
          \/ exists r, In r data /\ In n (tokens r))
  /\ List.length (SongGenre (cur c'))
     = (List.length (SongGenre (cur c)) + List.length (flat_map tokens data))%nat.
Proof.
  intros H. apply populate_database_returned in H as (c1 & E & ->). cbn [cur].
  destruct (rows_genres _ _ _ E) as (H1 & H2 & H3). split; [|exact H3].
  intros n. split.
  - intros Hn. apply in_map_iff in Hn as (g & <- & Hg).
    destruct (H2 g Hg) as [Hold|(r & Hr & Hn)].
    + left. now apply in_map.
    + right. now exists r.
  - intros [Hn|(r & Hr & Hn)]; [|now apply (H1 r)].
    apply in_map_iff in Hn as (g & <- & Hg). apply in_map.
    apply (@steps_keeps_row TGenre g c c1 (@steps_rows _ _ _ _ E)). exact Hg.
Qed.

Lemma genres_after_load_witness :
  exists c',
    populate_database [example_row] (connect empty_db) = (Returned tt, c')
    /\ In "rock" (map row_name (rows (Genre (cur c'))))
    /\ List.length (SongGenre (cur c')) = 2%nat.
Proof.
  assert (E0 : exists c', populate_database [example_row] (connect empty_db)
                          = (Returned tt, c'))
    by (eexists; vm_compute; reflexivity).
  destruct E0 as (c' & E0). exists c'. split; [exact E0|].
  destruct (genres_after_load [example_row] (connect empty_db) c' E0) as [H1 H2].
  split; [|exact H2].
  apply H1. right. exists example_row. split; [now left|].
  vm_compute. right. now left.
Defined.

(** *** Loading the same rows again *)

Lemma populate_database_returned_nodup data c c' :
  inv c -> populate_database data c = (Returned tt, c') ->
  Forall (fun r => NoDup (split ", " (genre r))) data.
Proof.
  intros Hinv E.
  assert (Hdec : forall l : list Row,
             Forall (fun r => NoDup (split ", " (genre r))) l
             \/ ~ Forall (fun r => NoDup (split ", " (genre r))) l).
  { induction l as [|r l [IH|IH]].
    - left. constructor.
    - destruct (NoDup_string_dec (split ", " (genre r))) as [Hr|Hr].
      + left. now constructor.
      + right. intros H. inversion H; contradiction.
    - right. intros H. inversion H; contradiction. }
  destruct (Hdec data) as [H|H]; [assumption|].
  destruct (rows_raise data c Hinv H) as (c'' & E').
  unfold populate_database, bind in E. rewrite E' in E. discriminate.
Qed.

(** Nothing is created, hence nothing committed, for keys already stored. *)
Lemma triple_known_key t v (I : Conn -> Prop) (A : Table NameRow) :
  In v (map row_name (rows A)) ->
  (forall c, I c -> get_table t (cur c) = A) ->
  triple I (get_or_create_id t v) (fun _ => I) I.
Proof.
  intros Hv HI c Hc.
  destruct (get_or_create_id_cases t v c) as [(x & _ & _ & E)|(Hnew & _)].
  - now rewrite E.
  - exfalso. apply Hnew. now rewrite (HI c Hc).
Qed.

Lemma rows_known data (A G : Table NameRow) (n : nat) :
  (forall r, In r data ->
             In (artist r) (map row_name (rows A))
             /\ forall tok, In tok (tokens r) -> In tok (map row_name (rows G))) ->
  triple (fun c => Artist (cur c) = A /\ Genre (cur c) = G /\ commits c = n)
         (for_each data populate_row)
         (fun _ c => Artist (cur c) = A /\ Genre (cur c) = G /\ commits c = n)
         (fun c => Artist (cur c) = A /\ Genre (cur c) = G /\ commits c = n).
Proof.
  intros Hknown.
  set (I := fun c => Artist (cur c) = A /\ Genre (cur c) = G /\ commits c = n).
  apply triple_for_each. intros r Hr.
  destruct (Hknown r Hr) as [Ha Hg]. unfold populate_row.
  apply triple_bind with (R := fun _ => I).
  - apply (triple_known_key TArtist (artist r) I A Ha). now intros c (H & _).
  - intros aid. apply triple_bind with (R := fun _ => I).
    + intros c Hc. rewrite insert_song_eq. exact Hc.
    + intros sid. apply triple_for_each. intros tok Htok. unfold link_genre.
      apply triple_bind with (R := fun _ => I).
      * apply (triple_known_key TGenre tok I G (Hg tok Htok)).
        now intros c (_ & H & _).
      * intros gid c Hc.
        destruct (insert_song_genre_cases sid gid c) as [[_ E]|[_ E]]; rewrite E;
          exact Hc.
Qed.

(** X8. Loading the same rows a second time, right after a completed run
    from a well-formed store, completes as well; it leaves the Artist and
    Genre tables exactly as they were, inserts every Song again, and commits
    only once, at the end. *)
Theorem second_load_duplicates_songs_only (data : list Row) (c c1 : Conn) :
  inv c ->
  populate_database data c = (Returned tt, c1) ->
  exists c2,
    populate_database data c1 = (Returned tt, c2)
    /\ Artist (cur c2) = Artist (cur c1)
    /\ Genre (cur c2) = Genre (cur c1)
    /\ List.length (rows (Song (cur c2)))
       = (List.length (rows (Song (cur c1))) + List.length data)%nat
    /\ commits c2 = S (commits c1).
Proof.
  intros Hinv H.
  pose proof (populate_database_returned_nodup data c c1 Hinv H) as Hnd.
  pose proof (@triple_populate_database data c Hinv) as Hinv1.
  rewrite H in Hinv1.
  destruct (@populate_database_complete data c1 Hinv1 Hnd) as (c2 & E2).
  exists c2. split; [exact E2|].
  apply populate_database_returned in H as (c0 & E & ->).
  apply populate_database_returned in E2 as (c3 & E3 & ->). cbn [cur] in *.
  assert (Hknown : forall r, In r data ->
             In (artist r) (map row_name (rows (Artist (cur c0))))
             /\ forall tok, In tok (tokens r) ->
                            In tok (map row_name (rows (Genre (cur c0))))).
  { intros r Hr. split.
    - destruct (@rows_returned data c c0 E) as (news & _ & HF).
      destruct (@Forall2_in_right _ _ _ _ _ _ HF Hr) as (s & _ & i & aid & _ & Hin).
      apply (in_map row_name) in Hin. exact Hin.
    - intros tok Htok. now apply (proj1 (rows_genres data c c0 E) r). }
  pose proof (rows_known data (Artist (cur c0)) (Genre (cur c0))
                (S (commits c0)) Hknown
                (mkConn (cur c0) (cur c0) (EvCommit (cur c0) :: log c0))
                (conj eq_refl (conj eq_refl eq_refl))) as T.
  rewrite E3 in T. destruct T as (TA & TG & TC).
  split; [exact TA|]. split; [exact TG|]. split.
  - destruct (@rows_returned data _ c3 E3) as (news & -> & HF).
    cbn [cur]. rewrite length_app. now rewrite (Forall2_length HF).
  - unfold commits in *. cbn [log filter is_commit List.length] in *. lia.
Qed.

Lemma second_load_duplicates_songs_only_witness :
  exists c1 c2,
    populate_database [example_row] (connect empty_db) = (Returned tt, c1)
    /\ populate_database [example_row] c1 = (Returned tt, c2)
    /\ Artist (cur c2) = Artist (cur c1)
    /\ List.length (rows (Song (cur c2))) = 2%nat.
Proof.
  assert (E0 : exists c1, populate_database [example_row] (connect empty_db)
                          = (Returned tt, c1) /\ List.length (rows (Song (cur c1))) = 1%nat)
    by (eexists; vm_compute; split; reflexivity).
  destruct E0 as (c1 & E0 & L1).
  destruct (second_load_duplicates_songs_only [example_row] (connect empty_db) c1
              (@inv_connect empty_db db_ok_empty) E0)
    as (c2 & E2 & HA & _ & HS & _).
  exists c1, c2. split; [exact E0|]. split; [exact E2|]. split; [exact HA|].
  rewrite HS, L1. reflexivity.
Defined.

(** *** The report queries of Artist.py *)

Lemma joined_iff sel d g p :
  In (g, p) (Artist.joined sel d)
  <-> exists s gr,
        In s (rows (Song d)) /\ sel s = true
        /\ In (song_id s, row_id gr) (SongGenre d)
        /\ In gr (rows (Genre d))
        /\ row_name gr = g /\ song_popularity s = p.
Proof.
  unfold Artist.joined. rewrite in_flat_map. split.
  - intros (s & Hs & H). apply filter_In in Hs as [Hs Hsel].
    apply in_flat_map in H as ([a b] & Hsg & H). cbn [fst snd] in H.
    destruct (Z.eqb_spec a (song_id s)) as [->|_]; [|destruct H].
    apply in_map_iff in H as (gr & Heq & Hgr). apply filter_In in Hgr as [Hgr Hid].
    apply Z.eqb_eq in Hid. inversion Heq; subst.
    exists s, gr. now repeat split.
  - intros (s & gr & Hs & Hsel & Hsg & Hgr & <- & <-).
    exists s. split; [apply filter_In; now split|].
    apply in_flat_map. exists (song_id s, row_id gr). split; [assumption|].
    cbn [fst snd]. rewrite Z.eqb_refl. apply in_map_iff. exists gr.
    split; [reflexivity|]. apply filter_In. split; [assumption|apply Z.eqb_refl].
Qed.

Lemma group_avg_keys l :
  map fst (Artist.group_avg l) = nodup string_dec (map fst l).
Proof.
  unfold Artist.group_avg. rewrite map_map. cbn [fst]. apply map_id.
Qed.

Lemma frame_genre_iff sel d g :
  In g (map fst (Artist.group_avg (Artist.joined sel d)))
  <-> exists s gr,
        In s (rows (Song d)) /\ sel s = true
        /\ In (song_id s, row_id gr) (SongGenre d)
        /\ In gr (rows (Genre d)) /\ row_name gr = g.
Proof.
  rewrite group_avg_keys, nodup_In, in_map_iff. split.
  - intros ([g' p] & <- & H). apply joined_iff in H as (s & gr & H).
    exists s, gr. tauto.
  - intros (s & gr & H1 & H2 & H3 & H4 & H5).
    exists (g, song_popularity s). split; [reflexivity|].
    apply joined_iff. exists s, gr. tauto.
Qed.

(** X9. The two report queries give one line per genre name.  A genre is
    in the artist's result exactly when a song of that artist is linked to a
    Genre row of that name, so every genre of the artist's result is also in
    the overall result, and an artist that owns no song gets an empty
    result. *)
Theorem report_genres (i : Z) (d : DB) :
  NoDup (map fst (Artist.get_artist_popularity_per_genre i d))
  /\ NoDup (map fst (Artist.get_overall_genre_popularity d))
  /\ (forall g,
         In g (map fst (Artist.get_artist_popularity_per_genre i d))
         <-> exists s gr,
               In s (rows (Song d)) /\ song_artist_id s = i
               /\ In (song_id s, row_id gr) (SongGenre d)
               /\ In gr (rows (Genre d)) /\ row_name gr = g)
  /\ incl (map fst (Artist.get_artist_popularity_per_genre i d))
          (map fst (Artist.get_overall_genre_popularity d))
  /\ ((forall s, In s (rows (Song d)) -> song_artist_id s <> i) ->
      Artist.get_artist_popularity_per_genre i d = []).
Proof.
  unfold Artist.get_artist_popularity_per_genre, Artist.get_overall_genre_popularity.
  split; [rewrite group_avg_keys; apply NoDup_nodup|].
  split; [rewrite group_avg_keys; apply NoDup_nodup|].
  split; [|split].
  - intros g. rewrite frame_genre_iff. split.
    + intros (s & gr & H1 & H2 & H). apply Z.eqb_eq in H2. now exists s, gr.
    + intros (s & gr & H1 & H2 & H). exists s, gr.
      split; [assumption|]. split; [now apply Z.eqb_eq|assumption].
  - intros g Hg. apply frame_genre_iff in Hg as (s & gr & H1 & _ & H).
    apply frame_genre_iff. now exists s, gr.
  - intros Hnone.
    destruct (Artist.group_avg
                (Artist.joined (fun s => song_artist_id s =? i) d))
      as [|[g a] l] eqn:E; [reflexivity|].
    exfalso.
    assert (Hg : In g (map fst (Artist.group_avg
                 (Artist.joined (fun s => song_artist_id s =? i) d))))
      by (rewrite E; now left).
    apply frame_genre_iff in Hg as (s & gr & H1 & H2 & _).
    apply Z.eqb_eq in H2. exact (Hnone s H1 H2).
Qed.

Lemma report_genres_witness :
  Artist.get_artist_popularity_per_genre 7 empty_db = [].
Proof.
  apply (report_genres 7 empty_db). intros s [].
Defined.

(** *** Averages *)

Lemma Forall2_in_left (A B : Type) (P : A -> B -> Prop) l1 l2 a :
  Forall2 P l1 l2 -> In a l1 -> exists b, In b l2 /\ P a b.
Proof.
  induction 1 as [|a' b l1 l2 Hab _ IH]; cbn; [tauto|].
  intros [<-|Hin].
  - exists b. split; [now left|assumption].
  - destruct (IH Hin) as (b' & Hb' & HP). exists b'. split; [now right|assumption].
Qed.

Lemma sum_bounds lo hi xs :
  (forall x, In x xs -> lo <= x <= hi) ->
  lo * Z.of_nat (List.length xs) <= fold_right Z.add 0 xs
  <= hi * Z.of_nat (List.length xs).
Proof.
  induction xs as [|x xs IH]; intros H; [cbn; lia|].
  specialize (IH (fun y Hy => H y (or_intror Hy))).
  pose proof (H x (or_introl eq_refl)).
  cbn [fold_right List.length]. lia.
Qed.

Lemma avg_bounds lo hi xs :
  xs <> [] -> (forall x, In x xs -> lo <= x <= hi) ->
  (inject_Z lo <= Artist.avg xs)%Q /\ (Artist.avg xs <= inject_Z hi)%Q.
Proof.
  intros Hne H. pose proof (sum_bounds lo hi xs H) as [Hlo Hhi].
  assert (Hlen : (0 < inject_Z (Z.of_nat (List.length xs)))%Q).
  { change 0%Q with (inject_Z 0). rewrite <- Zlt_Qlt.
    destruct xs; [contradiction|cbn [List.length]; lia]. }
  unfold Artist.avg. split.
  - apply Qle_shift_div_l; [exact Hlen|].
    rewrite <- inject_Z_mult, <- Zle_Qle. exact Hlo.
  - apply Qle_shift_div_r; [exact Hlen|].
    rewrite <- inject_Z_mult, <- Zle_Qle. exact Hhi.
Qed.

Lemma group_avg_entry l g a :
  In (g, a) (Artist.group_avg l) ->
  exists xs, xs <> [] /\ a = Artist.avg xs /\ incl xs (map snd l).
Proof.
  unfold Artist.group_avg. intros H.
  apply in_map_iff in H as (k & Heq & Hk). inversion Heq; subst; clear Heq.
  apply nodup_In in Hk. apply in_map_iff in Hk as ([g' p] & Hg & Hin).
  cbn [fst] in Hg. subst g'.
  exists (map snd (filter (fun q : string * Z => String.eqb (fst q) g) l)).
  split; [|split; [reflexivity|]].
  - intros Hnil.
    assert (Hp : In p (map snd (filter (fun q : string * Z => String.eqb (fst q) g) l))).
    { apply in_map_iff. exists (g, p). split; [reflexivity|].
      apply filter_In. split; [assumption|]. cbn. apply String.eqb_refl. }
    rewrite Hnil in Hp. destruct Hp.
  - intros x Hx. apply in_map_iff in Hx as (q & <- & Hq).
    apply filter_In in Hq as [Hq _]. now apply in_map.
Qed.

Lemma frame_bounds sel d lo hi g a :
  (forall s, In s (rows (Song d)) -> lo <= song_popularity s <= hi) ->
  In (g, a) (Artist.group_avg (Artist.joined sel d)) ->
  (inject_Z lo <= a)%Q /\ (a <= inject_Z hi)%Q.
Proof.
  intros Hb H. apply group_avg_entry in H as (xs & Hne & -> & Hincl).
  apply avg_bounds; [assumption|]. intros x Hx. apply Hincl in Hx.
  apply in_map_iff in Hx as ([g' p] & <- & Hin).
  apply joined_iff in Hin as (s & gr & Hs & _ & _ & _ & _ & <-).
  now apply Hb.
Qed.

(** X10. Every average either query reports lies between the smallest
    and the largest popularity of the stored songs; after a completed load
    into a fresh store every reported average is at least 51, the filter
    having kept only songs of popularity above 50. *)
Theorem report_averages_bounded :
  (forall d lo hi g a i,
      (forall s, In s (rows (Song d)) -> lo <= song_popularity s <= hi) ->
      In (g, a) (Artist.get_overall_genre_popularity d)
      \/ In (g, a) (Artist.get_artist_popularity_per_genre i d) ->
      (inject_Z lo <= a)%Q /\ (a <= inject_Z hi)%Q)
  /\ (forall csv c' g a i,
         main csv empty_db = (Returned tt, c') ->
         In (g, a) (Artist.get_overall_genre_popularity (durable c'))
         \/ In (g, a) (Artist.get_artist_popularity_per_genre i (durable c')) ->
         (51 <= a)%Q).
Proof.
  assert (Hgen : forall d lo hi g a i,
      (forall s, In s (rows (Song d)) -> lo <= song_popularity s <= hi) ->
      In (g, a) (Artist.get_overall_genre_popularity d)
      \/ In (g, a) (Artist.get_artist_popularity_per_genre i d) ->
      (inject_Z lo <= a)%Q /\ (a <= inject_Z hi)%Q).
  { intros d lo hi g a i Hb [H|H]; eapply frame_bounds; eassumption. }
  split; [exact Hgen|].
  intros csv c' g a i H Hin.
  pose proof (@main_songs csv empty_db c' H) as (news & E & HF).
  cbn [rows Song empty_db empty_table app] in E.
  set (hi := Z.max 51 (max_id (map song_popularity news))).
  destruct (Hgen (durable c') 51 hi g a i) as [Hlo _]; [|exact Hin|exact Hlo].
  intros s Hs. rewrite E in Hs.
  split.
  - destruct (Forall2_in_left _ _ _ _ _ _ HF Hs) as (r & Hr & i0 & aid & -> & _).
    apply filter_In in Hr as [_ Hr]. apply accepts_b_iff in Hr as [Hp _].
    cbn. lia.
  - unfold hi. apply Z.le_trans with (max_id (map song_popularity news));
      [|apply Z.le_max_r].
    apply max_id_ge. now apply in_map.
Qed.

(** *** From the load to the report *)

Lemma max_id_nonneg ids : 0 <= max_id ids.
Proof.
  induction ids as [|x ids IH]; [cbn; lia|].
  change (max_id (x :: ids)) with (Z.max x (max_id ids)). lia.
Qed.

Lemma stable_artist_ids_nonzero :
  stable (fun c => forall a, In a (rows (Artist (cur c))) -> row_id a <> 0).
Proof.
  constructor; intros; cbn in *; try now auto.
  destruct t; cbn in *; [|now auto].
  apply in_app_or in H0 as [H0|[<-|[]]]; [now auto|]. cbn.
  unfold fresh_id, next_rowid.
  pose proof (max_id_nonneg (map row_id (rows (Artist (cur c))))). cbn. lia.
Qed.

Lemma stable_holds_song s : stable (fun c => In s (rows (Song (cur c)))).
Proof.
  constructor; intros; cbn; try assumption.
  - now destruct t.
  - apply in_or_app. now left.
Qed.

Lemma stable_holds_pair p : stable (fun c => In p (SongGenre (cur c))).
Proof.
  constructor; intros; cbn; try assumption.
  - now destruct t.
  - apply in_or_app. now left.
Qed.

Lemma stable_linked r : stable (linked r).
Proof.
  constructor; intros; destruct H as (sid & aid & gid & tok & H1 & H2 & H3 & H4);
    exists sid, aid, gid, tok.
  - split; [apply (stable_name (stable_holds_song (song_of sid r aid))); exact H1|].
    split; [apply (stable_name (stable_holds_artist (mkName aid (artist r)))); exact H2|].
    split; [apply (stable_name (stable_holds_pair (sid, gid))); exact H3|].
    apply (stable_name (stable_holds_genre (mkName gid tok))); exact H4.
  - split; [apply (stable_song (stable_holds_song (song_of sid r aid))); exact H1|].
    split; [apply (stable_song (stable_holds_artist (mkName aid (artist r)))); exact H2|].
    split; [apply (stable_song (stable_holds_pair (sid, gid))); exact H3|].
    apply (stable_song (stable_holds_genre (mkName gid tok))); exact H4.
  - split; [apply (stable_pair (stable_holds_song (song_of sid r aid))); exact H1|].
    split; [apply (stable_pair (stable_holds_artist (mkName aid (artist r)))); exact H2|].
    split; [apply (stable_pair (stable_holds_pair (sid, gid))); exact H3|].
    apply (stable_pair (stable_holds_genre (mkName gid tok))); exact H4.
Qed.

Lemma populate_row_linked r c c' :
  populate_row r c = (Returned tt, c') -> linked r c'.
Proof.
  intros H.
  apply populate_row_returned in H as (aid & c1 & gids & _ & Ha & HA & HS & HSG & HF).
  pose proof (split_from_nonempty ", " (genre r) 0%nat "") as Hne.
  fold (split ", " (genre r)) in Hne.
  destruct HF as [|gid tok gids toks Hg _]; [contradiction|].
  exists (fresh_song_id (cur c)), aid, gid, tok. repeat split.
  - rewrite HS. apply in_or_app. right. now left.
  - now rewrite HA.
  - rewrite HSG. apply in_or_app. right. now left.
  - exact Hg.
Qed.

Lemma rows_linked data :
  forall c c',
    for_each data populate_row c = (Returned tt, c') ->
    forall r, In r data -> linked r c'.
Proof.
  induction data as [|r data IH]; intros c c' H r' Hr'; cbn [for_each] in H.
  - destruct Hr'.
  - apply bind_returned in H as ([] & c1 & E & E').
    destruct Hr' as [<-|Hr']; [|now apply (IH c1 c' E')].
    apply (@stable_steps (linked r) c1 c' (stable_linked r) (@steps_rows _ _ _ _ E')).
    now apply (populate_row_linked r c).
Qed.

Lemma main_linked csv disk c' r :
  main csv disk = (Returned tt, c') -> In r csv -> accepts r ->
  linked (preprocess_row r) (mkConn (durable c') (durable c') []).
Proof.
  intros H Hin Hacc. apply main_returned in H as (c1 & E & ->). cbn [durable].
  assert (Hl : linked (preprocess_row r) c1).
  { apply (rows_linked _ _ _ E (preprocess_row r)).
    rewrite load_and_preprocess_data_eq. apply in_map. apply filter_In.
    split; [assumption|now apply accepts_b_iff]. }
  exact Hl.
Qed.

Lemma main_artist_ids_nonzero csv disk c' :
  (forall a, In a (rows (Artist disk)) -> row_id a <> 0) ->
  main csv disk = (Returned tt, c') ->
  forall a, In a (rows (Artist (durable c'))) -> row_id a <> 0.
Proof.
  intros Hd H. apply main_returned in H as (c1 & E & ->). cbn [durable].
  apply (@stable_steps
           (fun c => forall a, In a (rows (Artist (cur c))) -> row_id a <> 0)
           _ c1 stable_artist_ids_nonzero (@steps_rows _ _ _ _ E)).
  exact Hd.
Qed.

(** X11. The load and the report fit together: after a completed run on
    a well-formed store in which no artist has rowid 0, typing any name with
    the canonical form of a kept row's artist makes the script print the
    comparison heading with the name as typed, show the table and the chart
    made of the rows of the two queries for that artist's rowid (in
    whatever order the queries give them), and end normally; the artist's
    result is not empty, and the store is left as it was. *)
Theorem loaded_artist_is_reported
        (csv : list CsvRow) (disk : DB) (c' : Conn) (r : CsvRow) (typed : string) :
  db_ok disk ->
  (forall a, In a (rows (Artist disk)) -> row_id a <> 0) ->
  main csv disk = (Returned tt, c') ->
  In r csv -> accepts r ->
  canonicalize typed = canonicalize (csv_artist r) ->
  exists i artist_df overall_df,
    In (mkName i (canonicalize (csv_artist r))) (rows (Artist (durable c')))
    /\ same_rows artist_df (Artist.get_artist_popularity_per_genre i (durable c'))
    /\ same_rows overall_df (Artist.get_overall_genre_popularity (durable c'))
    /\ artist_df <> []
    /\ Artist.script typed (durable c')
       = Artist.mkWorld (connect (durable c'))
           [Artist.Prompt "Please enter the artist's name: ";
            Artist.Print ("Popularity Comparison for Artist: " ++ typed)%string;
            Artist.Display artist_df overall_df;
            Artist.Show artist_df overall_df;
            Artist.Print "Program completed successfully!"].
Proof.
  intros Hok Hnz H Hin Hacc Hs.
  destruct (main_linked csv disk c' r H Hin Hacc)
    as (sid & aid & gid & tok & H1 & H2 & H3 & H4).
  cbn [cur] in H1, H2, H3, H4.
  change (artist (preprocess_row r)) with (canonicalize (csv_artist r)) in H2.
  pose proof (@main_inv csv disk Hok) as Hinv. rewrite H in Hinv.
  destruct Hinv as (_ & Hd & _). cbn [snd] in Hd.
  pose proof (main_artist_ids_nonzero csv disk c' Hnz H _ H2) as Hi.
  cbn [row_id] in Hi.
  exists aid, (Artist.get_artist_popularity_per_genre aid (durable c')),
         (Artist.get_overall_genre_popularity (durable c')).
  split; [exact H2|]. split; [now intros p|]. split; [now intros p|]. split.
  - intros Hnil.
    assert (Hg : In tok (map fst (Artist.get_artist_popularity_per_genre
                                    aid (durable c')))).
    { unfold Artist.get_artist_popularity_per_genre. apply frame_genre_iff.
      exists (song_of sid (preprocess_row r) aid), (mkName gid tok).
      repeat split; try assumption. cbn. apply Z.eqb_refl. }
    rewrite Hnil in Hg. destruct Hg.
  - assert (Eg : forall w,
               cur (Artist.conn w) = durable c' ->
               Artist.get_artist_id typed w = (Some aid, w)).
    { intros w Hw. unfold Artist.get_artist_id, Artist.select_artist_id.
      fold (canonicalize typed). rewrite Hs, Hw.
      fold (has_name (canonicalize (csv_artist r))).
      now rewrite (find_has_name_known _ _ _ (artist_names_unique Hd) H2). }
    unfold Artist.script, Artist.display_artist_vs_genre_popularity.
    rewrite Eg by reflexivity.
    destruct aid as [|p|p]; [contradiction|reflexivity|reflexivity].
Qed.

(** *** Counting the entities *)

Lemma NoDup_same_length (A : Type) (l1 l2 : list A) :
  NoDup l1 -> NoDup l2 -> (forall x, In x l1 <-> In x l2) ->
  List.length l1 = List.length l2.
Proof.
  intros H1 H2 H. apply Nat.le_antisymm.
  - apply NoDup_incl_length; [assumption|]. intros x Hx. now apply H.
  - apply NoDup_incl_length; [assumption|]. intros x Hx. now apply H.
Qed.

(** X12. Deduplication counts: loading into empty Artist and Genre tables
    leaves as many Artist rows as there are distinct artist names among the
    rows, and as many Genre rows as there are distinct genre tokens. *)
Theorem entity_counts (data : list Row) (c c' : Conn) :
  inv c ->
  rows (Artist (cur c)) = [] ->
  rows (Genre (cur c)) = [] ->
  populate_database data c = (Returned tt, c') ->
  List.length (rows (Artist (cur c')))
  = List.length (nodup string_dec (map artist data))
  /\ List.length (rows (Genre (cur c')))
     = List.length (nodup string_dec (flat_map tokens data)).
Proof.
  intros Hinv HA HG H.
  pose proof (@triple_populate_database data c Hinv) as Hinv'.
  rewrite H in Hinv'. destruct Hinv' as [Hok _].
  apply populate_database_returned in H as (c1 & E & ->). cbn [cur] in *.
  split.
  - rewrite <- (length_map row_name).
    apply NoDup_same_length;
      [apply (artist_names_unique Hok)|apply NoDup_nodup|].
    intros n. rewrite nodup_In, !in_map_iff. split.
    + intros (a & <- & Ha).
      destruct (@artists_after_rows data c c1 E a Ha) as [Hold|(r & Hr & Hn)].
      * rewrite HA in Hold. destruct Hold.
      * exists r. split; [now symmetry|assumption].
    + intros (r & <- & Hr).
      destruct (@rows_returned data c c1 E) as (news & _ & HF).
      destruct (@Forall2_in_right _ _ _ _ _ _ HF Hr) as (s & _ & i & aid & _ & Hin).
      exists (mkName aid (artist r)). split; [reflexivity|assumption].
  - rewrite <- (length_map row_name).
    apply NoDup_same_length;
      [apply (genre_names_unique Hok)|apply NoDup_nodup|].
    destruct (rows_genres data c c1 E) as (H1 & H2 & _).
    intros n. rewrite nodup_In, in_flat_map. split.
    + intros Hn. apply in_map_iff in Hn as (g & <- & Hg).
      destruct (H2 g Hg) as [Hold|Hnew]; [|exact Hnew].
      rewrite HG in Hold. destruct Hold.
    + intros (r & Hr & Hn). now apply (H1 r).
Qed.

Lemma entity_counts_witness :
  exists c',
    populate_database [example_row; example_row] (connect empty_db)
    = (Returned tt, c')
    /\ List.length (rows (Artist (cur c'))) = 1%nat
    /\ List.length (rows (Genre (cur c'))) = 2%nat.
Proof.
  assert (E0 : exists c', populate_database [example_row; example_row]
                            (connect empty_db) = (Returned tt, c'))
    by (eexists; vm_compute; reflexivity).
  destruct E0 as (c' & E0). exists c'. split; [exact E0|].
  exact (entity_counts [example_row; example_row] (connect empty_db) c'
           (@inv_connect empty_db db_ok_empty) eq_refl eq_refl E0).
Defined.

(** *** Each song keeps its own genres *)

Lemma filter_other_pairs sid sid' gids :
  sid' <> sid ->
  filter (fun p : Z * Z => fst p =? sid) (map (pair sid') gids) = [].
Proof.
  intros Hne. induction gids as [|g gids IH]; cbn; [reflexivity|].
  destruct (Z.eqb_spec sid' sid); [contradiction|exact IH].
Qed.

Lemma populate_row_keeps_links r c c' sid :
  inv c -> In sid (map song_id (rows (Song (cur c)))) ->
  populate_row r c = (Returned tt, c') ->
  genres_of_song sid (cur c') = genres_of_song sid (cur c)
  /\ In sid (map song_id (rows (Song (cur c')))).
Proof.
  intros Hinv Hs H.
  destruct (@populate_row_pairs r c c' Hinv H) as (aid & gids & HS & _ & HSG & _).
  split.
  - unfold genres_of_song. rewrite HSG, filter_app, filter_other_pairs.
    + apply app_nil_r.
    + intros E. rewrite <- E in Hs. exact (next_rowid_fresh _ _ Hs).
  - rewrite HS, map_app. apply in_or_app. now left.
Qed.

Lemma rows_keep_links data sid :
  forall c c',
    inv c -> In sid (map song_id (rows (Song (cur c)))) ->
    for_each data populate_row c = (Returned tt, c') ->
    genres_of_song sid (cur c') = genres_of_song sid (cur c).
Proof.
  induction data as [|r data IH]; intros c c' Hinv Hs H; cbn [for_each] in H.
  - now inversion H; subst.
  - apply bind_returned in H as ([] & c1 & E & E').
    destruct (populate_row_keeps_links r c c1 sid Hinv Hs E) as [H1 H2].
    rewrite <- H1. apply IH; [|assumption|assumption].
    exact (rows_inv [r] c (Returned tt) c1 Hinv
             ltac:(cbn [for_each]; unfold bind; now rewrite E)).
Qed.

Lemma rows_links data :
  forall c c',
    inv c ->
    for_each data populate_row c = (Returned tt, c') ->
    exists news,
      rows (Song (cur c')) = rows (Song (cur c)) ++ news
      /\ Forall2 (links_of c') news data.
Proof.
  induction data as [|r data IH]; intros c c' Hinv H; cbn [for_each] in H.
  - inversion H; subst. exists []. rewrite app_nil_r. split; constructor.
  - apply bind_returned in H as ([] & c1 & E & E').
    assert (Hinv1 : inv c1)
      by exact (rows_inv [r] c (Returned tt) c1 Hinv
                  ltac:(cbn [for_each]; unfold bind; now rewrite E)).
    destruct (@populate_row_pairs r c c1 Hinv E)
      as (aid & gids & HS & _ & _ & HL & HF).
    destruct (IH c1 c' Hinv1 E') as (news & HS' & HF').
    exists (song_of (fresh_song_id (cur c)) r aid :: news). split.
    + rewrite HS', HS. now rewrite <- app_assoc.
    + constructor; [|assumption]. split; [reflexivity|]. exists gids.
      cbn [song_id song_of]. split.
      * rewrite (rows_keep_links data (fresh_song_id (cur c)) c1 c' Hinv1);
          [exact HL| |exact E'].
        rewrite HS, map_app. apply in_or_app. right. now left.
      * eapply Forall2_impl; [|exact HF]. intros gid tok Hin.
        apply (@steps_keeps_row TGenre _ c1 c' (@steps_rows _ _ _ _ E')).
        exact Hin.
Qed.

(** X13. At the end of a completed run from a well-formed store, the Song
    rows added are, in input order, one per row, and the SongGenre pairs of
    each such song are exactly one per genre token of its own row, in token
    order, each to a Genre row named by that token: no later row adds to,
    or takes from, the genres of an earlier song. *)
Theorem songs_keep_their_genres (data : list Row) (c c' : Conn) :
  inv c ->
  populate_database data c = (Returned tt, c') ->
  exists news,
    rows (Song (cur c')) = rows (Song (cur c)) ++ news
    /\ Forall2 (fun s r =>
                  song_name s = song r
                  /\ exists gids,
                       genres_of_song (song_id s) (cur c')
                       = map (pair (song_id s)) gids
                       /\ Forall2 (fun gid tok =>
                                     In (mkName gid tok) (rows (Genre (cur c'))))
                                  gids (tokens r))
               news data.
Proof.
  intros Hinv H. apply populate_database_returned in H as (c1 & E & ->).
  destruct (rows_links data c c1 Hinv E) as (news & HS & HF).
  exists news. split; [exact HS|exact HF].
Qed.

Lemma songs_keep_their_genres_witness :
  exists c' news,
    populate_database [example_row; no_genre_row] (connect empty_db)
    = (Returned tt, c')
    /\ rows (Song (cur c')) = news
    /\ List.length news = 2%nat.
Proof.
  assert (E0 : exists c', populate_database [example_row; no_genre_row]
                            (connect empty_db) = (Returned tt, c'))
    by (eexists; vm_compute; reflexivity).
  destruct E0 as (c' & E0).
  destruct (songs_keep_their_genres [example_row; no_genre_row]
              (connect empty_db) c' (@inv_connect empty_db db_ok_empty) E0)
    as (news & HS & HF).
  exists c', news. split; [exact E0|]. split; [exact HS|].
  now rewrite (Forall2_length HF).
Defined.

(** *** An artist with rowid 0 *)

(** X14. [display_artist_vs_genre_popularity] tests the identifier with
    [not]: an artist that is stored, but under rowid 0, is found by
    [get_artist_id] and nevertheless gets nothing at all, neither the
    comparison nor the not-found message. *)
Theorem artist_rowid_zero_is_ignored (typed : string) (w : Artist.World) :
  NoDup (map row_name (rows (Artist (cur (Artist.conn w))))) ->
  In (mkName 0 (canonicalize typed)) (rows (Artist (cur (Artist.conn w)))) ->
  Artist.get_artist_id typed w = (Some 0, w)
  /\ Artist.display_artist_vs_genre_popularity typed w = w.
Proof.
  intros Hnd Hin.
  assert (E : Artist.get_artist_id typed w = (Some 0, w)).
  { unfold Artist.get_artist_id, Artist.select_artist_id.
    fold (canonicalize typed). fold (has_name (canonicalize typed)).
    now rewrite (find_has_name_known _ _ _ Hnd Hin). }
  split; [exact E|].
  unfold Artist.display_artist_vs_genre_popularity. now rewrite E.
Qed.

End Properties.

(* ================================================================= *)
(** ** The examples

    The runs below take ASCII lower-casing for [str.lower]; the names in
    them are made of ASCII characters, on which the two agree. *)

#[local] Existing Instance ascii_runtime.

Lemma load_keeps_invariants_witness :
  Forall schema_invariants (states (snd (main [example_csv_row] empty_db)))
  /\ exists c',
       populate_database [example_row; example_row] (connect empty_db)
       = (Returned tt, c')
       /\ List.length (rows (Artist (durable c'))) = 1%nat
       /\ List.length (rows (Song (durable c'))) = 2%nat.
Proof.
  destruct load_keeps_invariants as (H1 & _ & H3). split.
  - apply H1. exact db_ok_empty.
  - destruct (H3 example_row example_row eq_refl) as [Hc Hr].
    destruct Hr as (c' & E).
    + vm_compute. repeat constructor; simpl; intuition discriminate.
    + vm_compute. repeat constructor; simpl; intuition discriminate.
    + exists c'. split; [exact E|]. now apply Hc.
Defined.

Lemma filtering_policy_witness :
  exists c',
    main [example_csv_row] empty_db = (Returned tt, c')
    /\ List.length (rows (Song (durable c'))) = 1%nat.
Proof.
  eexists. split; [vm_compute; reflexivity|].
  destruct (filtering_policy [example_csv_row]) as (_ & _ & _ & H & _).
  apply (H empty_db). vm_compute. reflexivity.
Defined.

Lemma duration_rounded_witness :
  exists c',
    main [example_csv_row] empty_db = (Returned tt, c')
    /\ map song_duration (rows (Song (durable c'))) = [200].
Proof.
  eexists. split; [vm_compute; reflexivity|].
  destruct duration_rounded as (_ & _ & _ & H).
  apply (H [example_csv_row] empty_db). vm_compute. reflexivity.
Defined.

Lemma artist_names_canonical_witness :
  canonicalize "Foo Bar" = "foo_bar"
  /\ exists c',
       main [example_csv_row] empty_db = (Returned tt, c')
       /\ In "foo_bar" (map row_name (rows (Artist (durable c')))).
Proof.
  destruct (@artist_names_canonical ascii_runtime)
    as (_ & _ & H3 & _ & _ & _ & H7).
  split; [exact (H3 eq_refl)|].
  assert (E0 : exists c', main [example_csv_row] empty_db = (Returned tt, c'))
    by (eexists; vm_compute; reflexivity).
  destruct E0 as (c' & E0). exists c'. split; [exact E0|].
  apply (H7 [example_csv_row] empty_db c' example_csv_row eq_refl E0
            (or_introl eq_refl)); [|reflexivity].
  apply accepts_b_iff. reflexivity.
Defined.

Lemma artist_not_found_witness :
  Artist.script "Foo Bar" empty_db
  = Artist.mkWorld (connect empty_db)
      [Artist.Prompt "Please enter the artist's name: ";
       Artist.Print "Artist 'foo_bar' not found in the database.";
       Artist.Print "Program completed successfully!"].
Proof.
  destruct (@artist_not_found ascii_runtime "Foo Bar"
              (Artist.mkWorld (connect empty_db) [])) as (_ & _ & H).
  - simpl. tauto.
  - exact (H eq_refl eq_refl).
Defined.

Lemma get_artist_id_canonical_witness :
  Artist.get_artist_id "foo_bar" (Artist.mkWorld (connect empty_db) [])
  = Artist.get_artist_id "Foo Bar" (Artist.mkWorld (connect empty_db) [])
  /\ exists c' i,
       main [example_csv_row] empty_db = (Returned tt, c')
       /\ fst (Artist.get_artist_id "FOO bar"
                 (Artist.mkWorld (connect (durable c')) []))
          = Some i
       /\ In (mkName i "foo_bar") (rows (Artist (durable c'))).
Proof.
  destruct (@get_artist_id_canonical ascii_runtime) as (H1 & _ & H).
  split; [exact (H1 "Foo Bar" (Artist.mkWorld (connect empty_db) []) eq_refl)|].
  assert (E0 : exists c', main [example_csv_row] empty_db = (Returned tt, c'))
    by (eexists; vm_compute; reflexivity).
  destruct E0 as (c' & E0).
  assert (Hacc : accepts example_csv_row) by (apply accepts_b_iff; reflexivity).
  destruct (H [example_csv_row] empty_db c' example_csv_row "FOO bar" []
              db_ok_empty E0 (or_introl eq_refl) Hacc eq_refl)
    as (i & sg & E & Hi & _).
  exists c', i. split; [exact E0|]. split; [|exact Hi].
  rewrite E. reflexivity.
Defined.

Lemma canonicalize_shape_witness :
  canonicalize "Foo Bar" = "foo_bar"
  /\ String.length (canonicalize "Foo Bar") = 7%nat.
Proof.
  destruct (@canonicalize_shape ascii_runtime "Foo Bar") as (_ & _ & _ & _ & H).
  destruct (H eq_refl) as (H1 & H2 & _). split; [exact H1|exact H2].
Defined.

Lemma song_ids_consecutive_witness :
  exists c',
    main [example_csv_row; example_csv_row] empty_db = (Returned tt, c')
    /\ map song_id (rows (Song (durable c'))) = [1; 2].
Proof.
  assert (E0 : exists c', main [example_csv_row; example_csv_row] empty_db
                          = (Returned tt, c'))
    by (eexists; vm_compute; reflexivity).
  destruct E0 as (c' & E0). exists c'. split; [exact E0|].
  apply (song_ids_consecutive [example_csv_row; example_csv_row] empty_db c');
    [split; reflexivity|exact E0].
Defined.

Lemma report_averages_bounded_witness :
  exists c',
    main [example_csv_row] empty_db = (Returned tt, c')
    /\ forall g a,
         In (g, a) (Artist.get_overall_genre_popularity (durable c')) ->
         (51 <= a)%Q.
Proof.
  assert (E0 : exists c', main [example_csv_row] empty_db = (Returned tt, c'))
    by (eexists; vm_compute; reflexivity).
  destruct E0 as (c' & E0). exists c'. split; [exact E0|].
  intros g a Hin.
  apply (proj2 report_averages_bounded [example_csv_row] c' g a 0 E0).
  now left.
Defined.

Lemma loaded_artist_is_reported_witness :
  exists c' artist_df overall_df,
    main [example_csv_row] empty_db = (Returned tt, c')
    /\ artist_df <> []
    /\ Artist.stdout (Artist.script "foo bar" (durable c'))
       = [Artist.Prompt "Please enter the artist's name: ";
          Artist.Print "Popularity Comparison for Artist: foo bar";
          Artist.Display artist_df overall_df;
          Artist.Show artist_df overall_df;
          Artist.Print "Program completed successfully!"].
Proof.
  assert (E0 : exists c', main [example_csv_row] empty_db = (Returned tt, c'))
    by (eexists; vm_compute; reflexivity).
  destruct E0 as (c' & E0).
  assert (Hacc : accepts example_csv_row) by (apply accepts_b_iff; reflexivity).
  destruct (@loaded_artist_is_reported ascii_runtime [example_csv_row] empty_db c'
              example_csv_row "foo bar" db_ok_empty
              (fun a (H : False) => match H with end)
              E0 (or_introl eq_refl) Hacc eq_refl)
    as (i & a & o & _ & _ & _ & Hne & Hs).
  exists c', a, o. split; [exact E0|]. split; [exact Hne|]. now rewrite Hs.
Defined.

Lemma artist_rowid_zero_is_ignored_witness :
  Artist.stdout (Artist.script "Foo Bar" rowid_zero_db)
  = [Artist.Prompt "Please enter the artist's name: ";
     Artist.Print "Program completed successfully!"].
Proof.
  unfold Artist.script.
  rewrite (proj2 (artist_rowid_zero_is_ignored "Foo Bar"
                    (Artist.emit (Artist.Prompt "Please enter the artist's name: ")
                                 (Artist.mkWorld (connect rowid_zero_db) []))
                    ltac:(cbn; repeat constructor; intros [])
                    ltac:(cbn; now left))).
  reflexivity.
Defined.
